(** * patch-crates: a shallow embedding of [src/main.rs]

    The program edits [Cargo.toml] and [deny.toml] of a list of local
    repository checkouts and drives [git], [cargo] and [gh] as external
    processes.  This file models

    - the text of [Cargo.toml] as a [string] (it is appended to as raw text);
    - [toml::Value] as an inductive type, tables as association lists;
    - a [HashSet<String>] as a [gset string];
    - the process as a state monad over a [World] (current directory, the
      files of every repository, the log of every external command with its
      result), where a computation ends in [ROk], in an [anyhow] error
      ([RErr]) or in a panic ([RPanic]);
    - what the program does not define as an environment [Env]: the
      external processes (spawn failure or exit code, and what they do to
      the files), the directories that can be entered, the failures of the
      file system on writes, the iteration order of a [HashSet], and the
      parser [toml::from_str] of the [toml] crate. *)

From Stdlib Require Import Ascii String ZArith Lia.
From stdpp Require Import base gmap sets list strings.


Set Warnings "-register-all".

(* ------------------------------------------------------------------ *)
(** ** Characters and string helpers (Rust [str] methods) *)

Definition quote_char : ascii := ascii_of_nat 34.
Definition newline_char : ascii := ascii_of_nat 10.

(** The newline and the double-quote character as one-character strings. *)
Definition nl : string := String newline_char EmptyString.
Definition dq : string := String quote_char EmptyString.

(** A string between double quotes, as the format strings of the source write it. *)
Definition quoted (s : string) : string := dq +:+ s +:+ dq.

Definition is_ws (c : ascii) : bool :=
  match nat_of_ascii c with 32 | 9 | 10 | 13 => true | _ => false end.

Fixpoint drop_ws (l : list ascii) : list ascii :=
  match l with
  | c :: r => if is_ws c then drop_ws r else l
  | [] => []
  end.

(** [str::trim] *)
Definition trim (s : string) : string :=
  string_of_list_ascii
    (rev (drop_ws (rev (drop_ws (list_ascii_of_string s))))).

Fixpoint str_prefix (p s : string) : bool :=
  match p, s with
  | EmptyString, _ => true
  | String a p', String b s' => Ascii.eqb a b && str_prefix p' s'
  | String _ _, EmptyString => false
  end.

(** [str::contains] with a string pattern. *)
Fixpoint str_contains (pat s : string) : bool :=
  str_prefix pat s ||
  match s with
  | EmptyString => false
  | String _ s' => str_contains pat s'
  end.

(** [str::split] on one character: ["a.b"] gives [["a"; "b"]], [""] gives
    [[""]]. *)
Fixpoint split_go (c : ascii) (l : list ascii) (cur : list ascii)
    : list string :=
  match l with
  | [] => [string_of_list_ascii (rev cur)]
  | x :: r =>
      if Ascii.eqb x c then string_of_list_ascii (rev cur) :: split_go c r []
      else split_go c r (x :: cur)
  end.

Definition str_split (c : ascii) (s : string) : list string :=
  split_go c (list_ascii_of_string s) [].

(* ------------------------------------------------------------------ *)
(** ** Paths ([std::path::Path] on Unix) *)

(** [Path::is_absolute]: the path has a root. *)
Definition is_absolute (p : string) : bool := str_prefix "/" p.

(** [Path::file_name]: the last component if it is a normal one.  The
    components of a path are its ['/']-separated parts without empty parts
    and ["."]; a last component [".."] or no component at all (the root
    ["/"]) gives [None]. *)
Definition file_name (p : string) : option string :=
  match last (List.filter (fun s => negb (String.eqb s "") && negb (String.eqb s "."))
                     (str_split "/"%char p)) with
  | None => None
  | Some s => if String.eqb s ".." then None else Some s
  end.

(* ------------------------------------------------------------------ *)
(** ** [toml::Value] *)

Inductive Value :=
  | VString (s : string)
  | VInteger (z : Z)
  | VBoolean (b : bool)
  | VArray (l : list Value)
  | VTable (t : list (string * Value))
  (** a value whose text the manifest model does not interpret (inline
      tables, numbers, arrays written in [Cargo.toml]) *)
  | VOther (text : string).

Definition table := list (string * Value).

Fixpoint tbl_get (k : string) (t : table) : option Value :=
  match t with
  | [] => None
  | (k', v) :: r => if String.eqb k k' then Some v else tbl_get k r
  end.

(** [Map::insert]: replaces the value of an existing key, else adds it. *)
Fixpoint tbl_set (k : string) (v : Value) (t : table) : table :=
  match t with
  | [] => [(k, v)]
  | (k', v') :: r => if String.eqb k k' then (k, v) :: r else (k', v') :: tbl_set k v r
  end.

(** [Value::get] with a string index. *)
Definition value_get (v : Value) (k : string) : option Value :=
  match v with VTable t => tbl_get k t | _ => None end.

Definition as_table (v : Value) : option table :=
  match v with VTable t => Some t | _ => None end.

Definition as_array (v : Value) : option (list Value) :=
  match v with VArray l => Some l | _ => None end.

Definition as_str (v : Value) : option string :=
  match v with VString s => Some s | _ => None end.

Definition keys (t : table) : list string := map fst t.

(* ------------------------------------------------------------------ *)
(** ** A line-based TOML reader for the examples

    The program parses [Cargo.toml] with [toml::from_str], which the
    environment [Env] below supplies ([toml_from_str]); every property is
    stated for any parser.  The reader of this section is the parser of the
    example environments: it reads the small manifests of the examples as
    [toml::from_str] reads them.  Each non-blank line of the text is a comment (starting with [#]), a
    table header [[a.b]] or a pair [key = value], where the key may be
    dotted and each part is bare ([A-Za-z0-9_-]) or double-quoted.  A value
    is kept as a string if it is a plain double-quoted string and as
    [VOther] otherwise.  As in TOML, defining a key twice, defining a
    header twice or using a non-table as a table is a parse error; so is
    any other line.  Pairs spanning several lines and arrays of tables are
    outside the model. *)

Definition is_bare_char (c : ascii) : bool :=
  let n := nat_of_ascii c in
  (((48 <=? n) && (n <=? 57)) || ((65 <=? n) && (n <=? 90)) ||
   ((97 <=? n) && (n <=? 122)) || (n =? 95) || (n =? 45))%nat.

(** The text between two double quotes, if the string is exactly that. *)
Definition unquote (l : list ascii) : option (list ascii) :=
  match l with
  | q1 :: rest =>
      match rev rest with
      | q2 :: rinner =>
          if Ascii.eqb q1 quote_char && Ascii.eqb q2 quote_char &&
             forallb (fun c => negb (Ascii.eqb c quote_char)) rinner
          then Some (rev rinner) else None
      | [] => None
      end
  | [] => None
  end.

Definition parse_key_part (s : string) : option string :=
  let l := list_ascii_of_string (trim s) in
  match unquote l with
  | Some inner => Some (string_of_list_ascii inner)
  | None =>
      match l with
      | [] => None
      | _ => if forallb is_bare_char l then Some (string_of_list_ascii l) else None
      end
  end.

Fixpoint parse_key_parts (ps : list string) : option (list string) :=
  match ps with
  | [] => Some []
  | p :: r =>
      match parse_key_part p, parse_key_parts r with
      | Some k, Some ks => Some (k :: ks)
      | _, _ => None
      end
  end.

Definition parse_key (s : string) : option (list string) :=
  parse_key_parts (str_split "."%char s).

Definition parse_value (s : string) : option Value :=
  let l := list_ascii_of_string (trim s) in
  match l with
  | [] => None
  | _ =>
      match unquote l with
      | Some inner => Some (VString (string_of_list_ascii inner))
      | None => Some (VOther (string_of_list_ascii l))
      end
  end.

Inductive Line :=
  | LBlank
  | LHeader (path : list string)
  | LPair (key : list string) (v : Value)
  | LBad.

(** Splits at the first occurrence of a character. *)
Fixpoint break_at (c : ascii) (l : list ascii) : option (list ascii * list ascii) :=
  match l with
  | [] => None
  | x :: r =>
      if Ascii.eqb x c then Some ([], r)
      else match break_at c r with
           | Some (a, b) => Some (x :: a, b)
           | None => None
           end
  end.

Definition classify_line (line : string) : Line :=
  match list_ascii_of_string (trim line) with
  | [] => LBlank
  | c :: rest =>
      if Ascii.eqb c "#"%char then LBlank
      else if Ascii.eqb c "["%char then
        match rev rest with
        | c' :: rinner =>
            if Ascii.eqb c' "]"%char then
              match parse_key (string_of_list_ascii (rev rinner)) with
              | Some p => LHeader p
              | None => LBad
              end
            else LBad
        | [] => LBad
        end
      else
        match break_at "="%char (c :: rest) with
        | Some (k, v) =>
            match parse_key (string_of_list_ascii k),
                  parse_value (string_of_list_ascii v) with
            | Some kp, Some val => LPair kp val
            | _, _ => LBad
            end
        | None => LBad
        end
  end.

(** Inserts a value ([Some v]) or makes sure a table exists ([None]) at a
    key path, creating the intermediate tables. *)
Fixpoint tbl_insert (t : table) (p : list string) (leaf : option Value)
    : option table :=
  match p with
  | [] => match leaf with None => Some t | Some _ => None end
  | [k] =>
      match leaf, tbl_get k t with
      | Some v, None => Some (t ++ [(k, v)])
      | Some _, Some _ => None
      | None, None => Some (t ++ [(k, VTable [])])
      | None, Some (VTable _) => Some t
      | None, Some _ => None
      end
  | k :: rest =>
      match tbl_get k t with
      | Some (VTable sub) =>
          match tbl_insert sub rest leaf with
          | Some sub' => Some (tbl_set k (VTable sub') t)
          | None => None
          end
      | Some _ => None
      | None =>
          match tbl_insert [] rest leaf with
          | Some sub' => Some (t ++ [(k, VTable sub')])
          | None => None
          end
      end
  end.

(** [root]: the document so far; [cur]: the current header; [seen]: the
    headers already defined. *)
Fixpoint parse_lines (ls : list string) (root : table) (cur : list string)
    (seen : list (list string)) : option table :=
  match ls with
  | [] => Some root
  | l :: r =>
      match classify_line l with
      | LBlank => parse_lines r root cur seen
      | LHeader p =>
          if bool_decide (p ∈ seen) then None else
          match tbl_insert root p None with
          | Some root' => parse_lines r root' p (p :: seen)
          | None => None
          end
      | LPair k v =>
          match tbl_insert root (cur ++ k) (Some v) with
          | Some root' => parse_lines r root' cur seen
          | None => None
          end
      | LBad => None
      end
  end.

(** The root table, or a parse error. *)
Definition line_toml (text : string) : option table :=
  parse_lines (str_split newline_char text) [] [] [].

(* ------------------------------------------------------------------ *)
(** ** Results: [anyhow::Result] and panics *)

Inductive res (A : Type) :=
  | ROk (a : A)
  | RErr (msg : string)
  | RPanic (msg : string).
Arguments ROk {A} a.
Arguments RErr {A} msg.
Arguments RPanic {A} msg.

Definition is_ok {A} (r : res A) : bool :=
  match r with ROk _ => true | _ => false end.

(** [struct Crate { name, repo_url }] *)
Record Crate := mkCrate { name : string; repo_url : string }.

(* ------------------------------------------------------------------ *)
(** ** Reading the manifest *)

(** The loop [for crate_name in deps.keys() { set.insert(..) }]. *)
Definition insert_keys (s : gset string) (ks : list string) : gset string :=
  fold_left (fun acc k => {[k]} ∪ acc) ks s.

(** [if let Some(x) = toml.get(key) { if let Some(deps) = x.as_table() {
    insert every key } }] *)
Definition insert_table_keys (s : gset string) (v : option Value) : gset string :=
  match v with
  | Some x => match as_table x with Some deps => insert_keys s (keys deps) | None => s end
  | None => s
  end.

(** [toml_from_str] is [toml::from_str::<toml::Value>]: the root table of
    the document, or [None] for a parse error. *)
Definition parse_referenced_crates (toml_from_str : string -> option table)
    (cargo_toml_content : string) : res (gset string) :=
  match toml_from_str cargo_toml_content with
  | None => RErr "Failed to parse Cargo.toml"
  | Some root =>
      let toml := VTable root in
      let s := insert_table_keys ∅ (value_get toml "dependencies") in
      ROk (insert_table_keys s (value_get toml "dev-dependencies"))
  end.

Definition parse_existing_patches (toml_from_str : string -> option table)
    (cargo_toml_content : string) : res (gset string) :=
  match toml_from_str cargo_toml_content with
  | None => RErr "Failed to parse Cargo.toml"
  | Some root =>
      let toml := VTable root in
      match value_get toml "patch" with
      | Some patch => ROk (insert_table_keys ∅ (value_get patch "crates-io"))
      | None => ROk ∅
      end
  end.

(** [format!("{} = {{ git = \"{}\", branch = \"main\" }}", name, repo_url)] *)
Definition patch_line (c : Crate) : string :=
  name c +:+ " = { git = " +:+ quoted (repo_url c) +:+ ", branch = " +:+
  quoted "main" +:+ " }".

(** The header that [writeln!(cargo_toml, "\n[patch.crates-io]")] writes. *)
Definition patch_header : string := "[patch.crates-io]".

(* ------------------------------------------------------------------ *)
(** ** The world: current directory, files, external commands *)

(** The outcome of [Command::status()] / [Command::output()]: the exit code,
    or an [io::Error] when the process could not be spawned. *)
Inductive IoResult :=
  | IoOk (code : Z)
  | IoErr.

Record LogEntry := mkEntry {
  le_dir : string;          (** working directory of the command *)
  le_cmd : list string;     (** program and arguments *)
  le_res : IoResult
}.

(** [deny.toml], when it exists: a TOML document (its root table), a text
    that does not parse, or a file that cannot be read.  Writing
    [toml::to_string_pretty(&v)] stores the document [v]. *)
Inductive TomlFile :=
  | TomlDoc (root : table)
  | TomlUnparsable (text : string)
  | TomlUnreadable.

Record RepoFiles := mkFiles {
  cargo_toml : option string;
  deny_toml : option TomlFile
}.

Record World := mkWorld {
  cwd : string;
  files : string -> RepoFiles;   (** files of each directory *)
  log : list LogEntry            (** every external command run so far *)
}.

(** The environment.  Its answers may depend on the commands run before
    (the log) and on the directory.
    - [chdir_ok]: which directories can be entered;
    - [run_cmd]: what an external command returns and does to the files of
      its directory;
    - [toml_from_str]: [toml::from_str::<toml::Value>];
    - [open_append_ok]: whether [Cargo.toml] can be opened for appending
      (it cannot when it is read-only);
    - [append_write]: writing bytes at the end of [Cargo.toml] (given its
      content so far): [None] when all of them are written, [Some k] when
      the write fails after the first [k] bytes;
    - [pretty_ok]: whether [toml::to_string_pretty] serializes a document;
    - [write_deny]: [fs::write] of a document to [deny.toml]: [None] when it
      succeeds, [Some f] when it fails and leaves the file [f] (it truncates
      the file first);
    - [set_order]: the order in which a [HashSet<String>] yields its
      elements, which varies from run to run; it is some enumeration of the
      set. *)
Record Env := mkEnv {
  chdir_ok : string -> bool;
  run_cmd : list LogEntry -> string -> list string -> RepoFiles -> IoResult * RepoFiles;
  toml_from_str : string -> option table;
  open_append_ok : list LogEntry -> string -> bool;
  append_write : list LogEntry -> string -> string -> string -> option nat;
  pretty_ok : table -> bool;
  write_deny : list LogEntry -> string -> table -> option TomlFile;
  set_order : list LogEntry -> gset string -> list string;
  set_order_perm : forall l s, set_order l s ≡ₚ elements s
}.

Definition upd_files (f : string -> RepoFiles) (d : string) (r : RepoFiles)
    : string -> RepoFiles :=
  fun d' => if String.eqb d' d then r else f d'.

Definition cur_files (w : World) : RepoFiles := files w (cwd w).

Definition set_cur_files (w : World) (r : RepoFiles) : World :=
  mkWorld (cwd w) (upd_files (files w) (cwd w) r) (log w).

(** The state, error and panic monad of the program. *)
Definition M (A : Type) : Type := World -> res A * World.

Global Instance M_ret : MRet M := fun A a w => (ROk a, w).
Global Instance M_bind : MBind M := fun A B k m w =>
  match m w with
  | (ROk a, w') => k a w'
  | (RErr e, w') => (RErr e, w')
  | (RPanic e, w') => (RPanic e, w')
  end.

Definition fail {A} (msg : string) : M A := fun w => (RErr msg, w).

(** A pure [Result] lifted, as [?] does. *)
Definition lift {A} (r : res A) : M A := fun w => (r, w).

(** [match f() { Ok(a) => .., Err(e) => .. }]: catches errors, not panics. *)
Definition catch {A} (m : M A) : M (A + string) := fun w =>
  match m w with
  | (ROk a, w') => (ROk (inl a), w')
  | (RErr e, w') => (ROk (inr e), w')
  | (RPanic e, w') => (RPanic e, w')
  end.

(** [Option::expect] / [Option::unwrap]. *)
Definition expect {A} (o : option A) (msg : string) : M A := fun w =>
  match o with Some a => (ROk a, w) | None => (RPanic msg, w) end.

(** [std::env::set_current_dir(dir)]. *)
Definition set_current_dir (E : Env) (dir : string) : M unit := fun w =>
  if chdir_ok E dir then (ROk tt, mkWorld dir (files w) (log w))
  else (RErr "No such file or directory", w).

(** [Command::new(prog).args(args).status()]: runs in the current
    directory and is logged with its result. *)
Definition status (E : Env) (cmd : list string) : M IoResult := fun w =>
  let d := cwd w in
  let '(r, f') := run_cmd E (log w) d cmd (files w d) in
  (ROk r, mkWorld d (upd_files (files w) d f') (log w ++ [mkEntry d cmd r])).

(** [.status().with_context(|| msg)?] *)
Definition run_checked (E : Env) (cmd : list string) (msg : string) : M Z :=
  r ← status E cmd;
  match r with IoOk c => mret c | IoErr => fail msg end.

(** [fs::read_to_string("Cargo.toml").with_context(..)?] *)
Definition read_cargo : M string := fun w =>
  match cargo_toml (cur_files w) with
  | Some c => (ROk c, w)
  | None => (RErr "Failed to read Cargo.toml", w)
  end.

(** [fs::OpenOptions::new().append(true).open("Cargo.toml")
    .with_context(..)?] *)
Definition open_cargo_append (E : Env) : M unit := fun w =>
  match cargo_toml (cur_files w) with
  | Some _ =>
      if open_append_ok E (log w) (cwd w) then (ROk tt, w)
      else (RErr "Failed to open Cargo.toml for appending", w)
  | None => (RErr "Failed to open Cargo.toml for appending", w)
  end.

(** [writeln!(cargo_toml, ..).with_context(..)?] on the file opened for
    appending: writes [data] and a newline at the end of the file; a write
    that fails may have written a part of them. *)
Definition writeln_cargo (E : Env) (data : string) : M unit := fun w =>
  let bytes := data +:+ nl in
  match cargo_toml (cur_files w) with
  | Some content =>
      match append_write E (log w) (cwd w) content bytes with
      | None =>
          (ROk tt, set_cur_files w (mkFiles (Some (content +:+ bytes)) (deny_toml (cur_files w))))
      | Some k =>
          (RErr "Failed to write to Cargo.toml",
           set_cur_files w (mkFiles (Some (content +:+ substring 0 k bytes))
                              (deny_toml (cur_files w))))
      end
  | None => (RErr "Failed to write to Cargo.toml", w)
  end.

(* ------------------------------------------------------------------ *)
(** ** The operations of [main.rs] *)

(** The loop of [ensure_patches_in_cargo_toml] over the candidates: every
    hit is written to the file, then pushed to [updated_crates]. *)
Fixpoint append_patches (E : Env) (referenced_crates existing_patches : gset string)
    (crates : list Crate) (updated_crates : list Crate) : M (list Crate) :=
  match crates with
  | [] => mret updated_crates
  | crate_entry :: rest =>
      if bool_decide (name crate_entry ∈ referenced_crates) &&
         negb (bool_decide (name crate_entry ∈ existing_patches))
      then
        writeln_cargo E (patch_line crate_entry);;
        append_patches E referenced_crates existing_patches rest (updated_crates ++ [crate_entry])
      else append_patches E referenced_crates existing_patches rest updated_crates
  end.

(** [ensure_patches_in_cargo_toml] *)
Definition ensure_patches_in_cargo_toml (E : Env) (crates : list Crate) : M (list Crate) :=
  cargo_toml_content ← read_cargo;
  referenced_crates ← lift (parse_referenced_crates (toml_from_str E) cargo_toml_content);
  existing_patches ← lift (parse_existing_patches (toml_from_str E) cargo_toml_content);
  open_cargo_append E;;
  (if negb (str_contains patch_header cargo_toml_content)
   then writeln_cargo E (nl +:+ patch_header) else mret tt);;
  append_patches E referenced_crates existing_patches crates [].

(** [create_and_checkout_branch] *)
Definition create_and_checkout_branch (E : Env) (branch_name : string) : M unit :=
  run_checked E ["git"; "checkout"; "main"] "Failed to checkout `main` branch";;
  run_checked E ["git"; "pull"; "origin"; "main"] "Failed to pull from `origin/main`";;
  run_checked E ["git"; "checkout"; "-b"; branch_name] "Failed to create and checkout branch";;
  mret tt.

(** [cargo_update] *)
Definition cargo_update (E : Env) (updated_crates : list Crate) : M unit :=
  run_checked E (["cargo"; "update"] ++
                 concat (map (fun k => ["--package"; name k]) updated_crates))
    "Failed to run `cargo update`";;
  mret tt.

(** The collected values of [git_repos] in [update_deny_toml]: the URLs of
    the updated crates, then every string of an existing
    [sources.allow-git] array. *)
Definition existing_allow_git (root : table) : list string :=
  match value_get (VTable root) "sources" with
  | Some sources =>
      match value_get sources "allow-git" with
      | Some allow_git =>
          match as_array allow_git with
          | Some existing_repos => omap as_str existing_repos
          | None => []
          end
      | None => []
      end
  | None => []
  end.

Definition git_repos_of (updated_crates : list Crate) (root : table) : gset string :=
  fold_left (fun s r => {[r]} ∪ s) (existing_allow_git root)
    (list_to_set (map repo_url updated_crates)).

Definition unwrap_msg : string := "called `Option::unwrap()` on a `None` value".

(** [update_deny_toml]: [git_repos.into_iter()] yields the URLs in the
    order [set_order] of the environment. *)
Definition update_deny_toml (E : Env) (updated_crates : list Crate) : M unit := fun w =>
  match deny_toml (cur_files w) with
  | None => (ROk tt, w)
  | Some TomlUnreadable => (RErr "Failed to read deny.toml", w)
  | Some (TomlUnparsable _) => (RErr "Failed to parse deny.toml", w)
  | Some (TomlDoc root) =>
      let git_repos := git_repos_of updated_crates root in
      let allow_git_value := VArray (map VString (set_order E (log w) git_repos)) in
      let sources := match tbl_get "sources" root with
                     | Some v => v
                     | None => VTable []
                     end in
      match as_table sources with
      | None => (RPanic unwrap_msg, w)
      | Some src =>
          let root' := tbl_set "sources" (VTable (tbl_set "allow-git" allow_git_value src)) root in
          if pretty_ok E root' then
            match write_deny E (log w) (cwd w) root' with
            | None =>
                (ROk tt, set_cur_files w (mkFiles (cargo_toml (cur_files w)) (Some (TomlDoc root'))))
            | Some f =>
                (RErr "Failed to write deny.toml",
                 set_cur_files w (mkFiles (cargo_toml (cur_files w)) (Some f)))
            end
          else (RErr "Failed to serialize deny.toml", w)
      end
  end.

Fixpoint join_lines (ls : list string) : string :=
  match ls with
  | [] => ""
  | [l] => l
  | l :: r => l +:+ nl +:+ join_lines r
  end.

(** The list of dependencies in the commit message and the PR body. *)
Definition crate_list_body (cs : list Crate) : string :=
  "This PR updates the following dependencies to use their main branches:" +:+ nl +:+ nl +:+
  join_lines (map (fun c => "- `" +:+ name c +:+ "` from `" +:+ repo_url c +:+ "`") cs).

(** [commit_changes] *)
Definition commit_changes (E : Env) (updated_crates : list Crate) : M unit :=
  let commit_message :=
    "chore: add patch for `iroh` dependencies" +:+ nl +:+ nl +:+ crate_list_body updated_crates in
  run_checked E ["git"; "add"; "Cargo.toml"; "Cargo.lock"] "Failed to stage changes";;
  run_checked E ["git"; "commit"; "-m"; commit_message] "Failed to commit changes";;
  mret tt.

(** [push_branch] *)
Definition push_branch (E : Env) (branch_name : string) : M unit :=
  run_checked E ["git"; "push"; "origin"; branch_name] "Failed to push branch";;
  mret tt.

(** [create_pull_request] *)
Definition create_pull_request (E : Env) (branch_name : string) (relevant : list Crate)
    : M unit :=
  run_checked E ["gh"; "pr"; "create"; "--title";
                 "chore: patch to use main branch of iroh dependencies";
                 "--body"; crate_list_body relevant; "--base"; "main";
                 "--head"; branch_name]
    "Failed to create pull request";;
  mret tt.

(** Lines 188-205 of [patch_crate]: push, then a PR listing every
    configured crate now in [patch.crates-io]. *)
Definition publish (E : Env) (branch_name : string) (crates : list Crate) : M unit :=
  push_branch E branch_name;;
  cargo_toml_content ← read_cargo;
  existing_patches ← lift (parse_existing_patches (toml_from_str E) cargo_toml_content);
  create_pull_request E branch_name
    (List.filter (fun c => bool_decide (name c ∈ existing_patches)) crates).

(** Lines 174-206 of [patch_crate], after the manifest-patch step. *)
Definition patch_after_ensure (E : Env) (branch_name : string) (crates : list Crate)
    (execute : bool) (updated_crates : list Crate) : M unit :=
  (if negb (bool_decide (updated_crates = [])) then
     cargo_update E updated_crates;;
     update_deny_toml E updated_crates;;
     commit_changes E updated_crates
   else mret tt);;
  if execute then publish E branch_name crates else mret tt.

(** [patch_crate] *)
Definition patch_crate (E : Env) (directory branch_name : string) (crates : list Crate)
    (execute : bool) : M unit :=
  set_current_dir E directory;;
  _dir_name ← expect (file_name directory) "checked";
  probe ← status E ["git"; "rev-parse"; "--verify"; branch_name];
  let branch_exists := match probe with IoOk c => Z.eqb c 0 | IoErr => false end in
  (if negb branch_exists then create_and_checkout_branch E branch_name else mret tt);;
  updated_crates ← ensure_patches_in_cargo_toml E crates;
  patch_after_ensure E branch_name crates execute updated_crates.

(** The report loops [for cr in ..: cr.file_name().unwrap()]. *)
Fixpoint report_names (ds : list string) : M (list string) :=
  match ds with
  | [] => mret []
  | d :: r => n ← expect (file_name d) unwrap_msg; ns ← report_names r; mret (n :: ns)
  end.

Fixpoint patch_loop (E : Env) (dirs : list string) (branch_name : string)
    (crates : list Crate) (execute : bool) (successful unsuccessful : list string)
    : M (list string * list string) :=
  match dirs with
  | [] => mret (successful, unsuccessful)
  | dir :: rest =>
      r ← catch (patch_crate E dir branch_name crates execute);
      match r with
      | inl _ => patch_loop E rest branch_name crates execute (successful ++ [dir]) unsuccessful
      | inr _ => patch_loop E rest branch_name crates execute successful (unsuccessful ++ [dir])
      end
  end.

(** [patch_crates]: the names it reports as patched and as not patched. *)
Definition patch_crates (E : Env) (dirs : list string) (branch_name : string)
    (crates : list Crate) (execute : bool) : M (list string * list string) :=
  '(successful, unsuccessful) ← patch_loop E dirs branch_name crates execute [] [];
  s ← report_names successful;
  u ← report_names unsuccessful;
  mret (s, u).

(** [std::env::set_current_dir(dir).is_ok()] *)
Definition try_set_current_dir (E : Env) (dir : string) : M bool :=
  r ← catch (set_current_dir E dir);
  mret (match r with inl _ => true | inr _ => false end).

(** The body of the loop of [cleanup_branches], once in the directory. *)
Definition cleanup_one (E : Env) : M unit :=
  run_checked E ["git"; "checkout"; "main"] "Failed to checkout `main` branch";;
  status E ["git"; "branch"; "-D"; "patch-iroh-main"];;
  status E ["git"; "push"; "origin"; "--delete"; "patch-iroh-main"];;
  mret tt.

(** [cleanup_branches] *)
Fixpoint cleanup_branches (E : Env) (dirs : list string) : M unit :=
  match dirs with
  | [] => mret tt
  | dir :: rest =>
      entered ← try_set_current_dir E dir;
      (if (entered : bool) then cleanup_one E else mret tt);;
      cleanup_branches E rest
  end.

(** [checkout_and_pull] *)
Definition checkout_and_pull (E : Env) : M unit :=
  run_checked E ["git"; "checkout"; "main"] "Failed to checkout `main`";;
  run_checked E ["git"; "pull"; "origin"; "main"] "Failed to pull from `origin/main`";;
  mret tt.

(** [list_relevant_crates] *)
Definition list_relevant_crates (E : Env) (crates : list Crate) : M (list Crate) :=
  cargo_toml_content ← read_cargo;
  referenced_crates ← lift (parse_referenced_crates (toml_from_str E) cargo_toml_content);
  mret (List.filter (fun k => bool_decide (name k ∈ referenced_crates)) crates).

(** [cargo_check]: the only command whose exit status is inspected. *)
Definition cargo_check (E : Env) : M unit :=
  code ← run_checked E ["cargo"; "check"; "--all-targets"; "--all-features"]
           "Failed to run `cargo check`";
  if Z.eqb code 0 then mret tt else fail "`cargo check` failed with errors".

(** Which bucket of [update_and_check] a directory ends in. *)
Inductive UpdateOutcome :=
  | USuccess
  | UMainFailure
  | UUpdateFailure
  | UCheckFailure.

(** The body of the loop of [update_and_check], once in the directory. *)
Definition update_one (E : Env) (crates : list Crate) : M UpdateOutcome :=
  r1 ← catch (checkout_and_pull E);
  match r1 with
  | inr _ => mret UMainFailure
  | inl _ =>
      r2 ← catch (list_relevant_crates E crates);
      match r2 with
      | inr _ => mret UUpdateFailure
      | inl referenced_crates =>
          r3 ← catch (cargo_update E referenced_crates);
          match r3 with
          | inr _ => mret UUpdateFailure
          | inl _ =>
              r4 ← catch (cargo_check E);
              match r4 with
              | inr _ => mret UCheckFailure
              | inl _ => mret USuccess
              end
          end
      end
  end.

Record UpdateReport := mkReport {
  successes : list string;
  main_failures : list string;
  update_failures : list string;
  check_failures : list string
}.

Definition add_outcome (rep : UpdateReport) (o : UpdateOutcome) (n : string)
    : UpdateReport :=
  match o with
  | USuccess => mkReport (successes rep ++ [n]) (main_failures rep)
                  (update_failures rep) (check_failures rep)
  | UMainFailure => mkReport (successes rep) (main_failures rep ++ [n])
                      (update_failures rep) (check_failures rep)
  | UUpdateFailure => mkReport (successes rep) (main_failures rep)
                        (update_failures rep ++ [n]) (check_failures rep)
  | UCheckFailure => mkReport (successes rep) (main_failures rep)
                       (update_failures rep) (check_failures rep ++ [n])
  end.

Fixpoint update_loop (E : Env) (dirs : list string) (crates : list Crate)
    (rep : UpdateReport) : M UpdateReport :=
  match dirs with
  | [] => mret rep
  | dir :: rest =>
      dir_name ← expect (file_name dir) "checked";
      entered ← try_set_current_dir E dir;
      if (entered : bool) then
        o ← update_one E crates;
        update_loop E rest crates (add_outcome rep o dir_name)
      else update_loop E rest crates rep
  end.

(** [update_and_check]: the four buckets it reports. *)
Definition update_and_check (E : Env) (dirs : list string) (crates : list Crate)
    : M UpdateReport :=
  update_loop E dirs crates (mkReport [] [] [] []).

(** The body of the loop of [reset], once in the directory: [true] for
    success. *)
Definition reset_one (E : Env) : M bool :=
  r ← catch (run_checked E ["git"; "reset"; "--hard"] "Failed to run `cargo reset --hard`");
  mret (match r with inl _ => true | inr _ => false end).

Fixpoint reset_loop (E : Env) (dirs : list string) (failures successes : list string)
    : M (list string * list string) :=
  match dirs with
  | [] => mret (successes, failures)
  | dir :: rest =>
      dir_name ← expect (file_name dir) "checked";
      entered ← try_set_current_dir E dir;
      if (entered : bool) then
        b ← reset_one E;
        if (b : bool) then reset_loop E rest failures (successes ++ [dir_name])
        else reset_loop E rest (failures ++ [dir_name]) successes
      else reset_loop E rest failures successes
  end.

(** [reset]: the names reported as reset and as not reset. *)
Definition reset (E : Env) (dirs : list string) : M (list string * list string) :=
  reset_loop E dirs [] [].

(** The directory check of [load_config]. *)
Fixpoint validate_directories (dirs : list string) : res unit :=
  match dirs with
  | [] => ROk tt
  | d :: r =>
      if is_absolute d then validate_directories r
      else RErr ("Directory path '" +:+ d +:+ "' is not absolute")
  end.

(* ------------------------------------------------------------------ *)
(** ** Configuration and the command line *)

(** [struct Config] *)
Record Config := mkConfig {
  directories : list string;
  crates : list Crate;
  branch_name : string
}.

(** [enum Commands] *)
Inductive Commands :=
  | Patch (execute : bool)
  | Cleanup
  | Update
  | Reset.

(** [load_config]: [config_file] is what [fs::read_to_string(path)] gives
    ([None] when the file cannot be read) and [decode] stands for
    [toml::from_str::<Config>] ([None] when the text is not a valid
    configuration). *)
Definition load_config (path : string) (config_file : option string)
    (decode : string -> option Config) : res Config :=
  match config_file with
  | None => RErr ("Failed to read config file at " +:+ path)
  | Some config_content =>
      match decode config_content with
      | None => RErr "Failed to parse config file"
      | Some config =>
          match validate_directories (directories config) with
          | ROk _ => ROk config
          | RErr e => RErr e
          | RPanic e => RPanic e
          end
      end
  end.

(** [main], once the command line is parsed and the logger set up: the
    configuration is loaded from [path], then the subcommand runs. *)
Definition main (E : Env) (path : string) (config_file : option string)
    (decode : string -> option Config) (command : Commands) : M unit :=
  config ← lift (load_config path config_file decode);
  match command with
  | Patch execute =>
      patch_crates E (directories config) (branch_name config) (crates config) execute;;
      mret tt
  | Cleanup => cleanup_branches E (directories config)
  | Update => update_and_check E (directories config) (crates config);; mret tt
  | Reset => reset E (directories config);; mret tt
  end.

(* ------------------------------------------------------------------ *)
(** ** Observers used to state the properties *)

Definition append_all (ls : list string) : string := fold_right String.append "" ls.

(** The selection rule of the spec: referenced and not yet overridden. *)
Definition applies (referenced existing : gset string) (c : Crate) : bool :=
  bool_decide (name c ∈ referenced) && negb (bool_decide (name c ∈ existing)).

(** [m] only appends to the [Cargo.toml] of the current directory: run
    on a state where that file holds [c], it ends with the file holding [c]
    followed by a prefix of [added], all of [added] when it succeeds; it
    changes no other file, stays in its directory and runs no command. *)
Definition Appends {A} (m : M A) (added : string) : Prop :=
  forall w c, cargo_toml (cur_files w) = Some c ->
  let w' := snd (m w) in
  cwd w' = cwd w /\ log w' = log w /\
  (forall d, d <> cwd w -> files w' d = files w d) /\
  deny_toml (cur_files w') = deny_toml (cur_files w) /\
  exists p q, cargo_toml (cur_files w') = Some (c +:+ p) /\ p +:+ q = added /\
    (is_ok (fst (m w)) = true -> q = "").

(** The entries of the override section [[patch.crates-io]] as written in
    the text, with repetitions: the first key part of every pair line
    under that header. *)
Fixpoint section_keys_go (ls : list string) (cur : list string) : list string :=
  match ls with
  | [] => []
  | l :: r =>
      match classify_line l with
      | LHeader p => section_keys_go r p
      | LPair (k :: _) _ =>
          if bool_decide (cur = ["patch"; "crates-io"]) then k :: section_keys_go r cur
          else section_keys_go r cur
      | _ => section_keys_go r cur
      end
  end.

Definition override_section_keys (text : string) : list string :=
  section_keys_go (str_split newline_char text) [].

Fixpoint strings_of (l : list Value) : option (list string) :=
  match l with
  | [] => Some []
  | VString s :: r => option_map (cons s) (strings_of r)
  | _ :: _ => None
  end.

(** The URL list [sources.allow-git] of a [deny.toml] document. *)
Definition allow_git_urls (root : table) : option (list string) :=
  match tbl_get "sources" root with
  | Some (VTable src) =>
      match tbl_get "allow-git" src with
      | Some (VArray l) => strings_of l
      | _ => None
      end
  | _ => None
  end.




(** [m] runs no external command. *)
Definition NoLog {A} (m : M A) : Prop := forall w, log (snd (m w)) = log w.



(** Every external command [m] runs satisfies [P]. *)
Definition RunsOnly {A} (P : list string -> Prop) (m : M A) : Prop :=
  forall w, exists new, log (snd (m w)) = log w ++ new /\ Forall (fun e => P (le_cmd e)) new.

(** [m] never ends in an [anyhow] error (it may panic). *)
Definition NoErr {A} (m : M A) : Prop := forall w e, fst (m w) <> RErr e.

(* ------------------------------------------------------------------ *)
(** ** Concrete inputs *)

Definition foo : Crate := mkCrate "foo" "https://example/foo".
Definition bar : Crate := mkCrate "bar" "https://example/bar".

(** A manifest whose override section is followed by another table. *)
Definition manifest_patch_not_last : string :=
  "[dependencies]" +:+ nl +:+
  "foo = " +:+ quoted "1" +:+ nl +:+ nl +:+
  "[patch.crates-io]" +:+ nl +:+
  patch_line bar +:+ nl +:+ nl +:+
  "[profile.release]" +:+ nl +:+
  "lto = true" +:+ nl.

(** A manifest without override section. *)
Definition manifest_plain : string :=
  "[dependencies]" +:+ nl +:+ "foo = " +:+ quoted "1" +:+ nl.

(** A manifest that does not parse: an unterminated header. *)
Definition manifest_broken : string :=
  "[dependencies" +:+ nl +:+ "foo = " +:+ quoted "1" +:+ nl.

(** Every directory holds the same manifest and no [deny.toml]. *)
Definition world_with (manifest : string) : World :=
  mkWorld "/start" (fun _ => mkFiles (Some manifest) None) [].

(** An environment of the examples with the given directories and
    commands: TOML is read by [line_toml], every write to [Cargo.toml] and
    [deny.toml] succeeds, every document serializes, and a [HashSet] yields
    its elements in the order of [elements]. *)
Definition env_of (chdir : string -> bool)
    (run : list LogEntry -> string -> list string -> RepoFiles -> IoResult * RepoFiles) : Env :=
  mkEnv chdir run line_toml (fun _ _ => true) (fun _ _ _ _ => None) (fun _ => true)
    (fun _ _ _ => None) (fun _ s => elements s) (fun _ s => Permutation_refl (elements s)).

(** Every directory can be entered, every command succeeds. *)
Definition env_ok : Env := env_of (fun _ => true) (fun _ _ _ f => (IoOk 0, f)).

(** As [env_ok], but [Cargo.toml] cannot grow beyond [limit] bytes (a full
    disk): a write past the limit fails after the bytes that still fit. *)
Definition env_cargo_limit (limit : nat) : Env :=
  mkEnv (fun _ => true) (fun _ _ _ f => (IoOk 0, f)) line_toml (fun _ _ => true)
    (fun _ _ content bytes =>
       if (String.length content + String.length bytes <=? limit)%nat then None
       else Some (limit - String.length content)%nat)
    (fun _ => true) (fun _ _ _ => None) (fun _ s => elements s)
    (fun _ s => Permutation_refl (elements s)).

(** As [env_ok], but [git rev-parse --verify] exits with status 1 (the
    branch does not exist yet). *)
Definition env_new_branch : Env :=
  env_of (fun _ => true)
    (fun _ _ cmd f =>
       if bool_decide (take 2 cmd = ["git"; "rev-parse"]) then (IoOk 1, f) else (IoOk 0, f)).

(** As [env_ok], but [git commit] exits with status 1. *)
Definition env_commit_fails : Env :=
  env_of (fun _ => true)
    (fun _ _ cmd f =>
       if bool_decide (take 2 cmd = ["git"; "commit"]) then (IoOk 1, f) else (IoOk 0, f)).

(** As [env_ok], but no command can be spawned in directory [d]. *)
Definition env_spawn_fails_in (d : string) : Env :=
  env_of (fun _ => true) (fun _ dir _ f => if String.eqb dir d then (IoErr, f) else (IoOk 0, f)).

(** As [env_ok], but directory [d] cannot be entered. *)
Definition env_no_chdir (d : string) : Env :=
  env_of (fun d' => negb (String.eqb d' d)) (fun _ _ _ f => (IoOk 0, f)).

(** A [deny.toml] that already allows [foo]'s repository. *)
Definition deny_with_foo : table :=
  [("sources", VTable [("allow-git", VArray [VString "https://example/foo"])])].

Definition world_with_deny : World :=
  mkWorld "/a" (fun _ => mkFiles (Some manifest_plain) (Some (TomlDoc deny_with_foo))) [].

(* ================================================================== *)
(** * Properties *)

Lemma string_app_cons (x : ascii) (a b : string) : String x a +:+ b = String x (a +:+ b).
Proof. reflexivity. Qed.

Lemma string_app_assoc (a b c : string) : (a +:+ b) +:+ c = a +:+ (b +:+ c).
Proof.
  induction a as [|x a IH]; [reflexivity|].
  rewrite !string_app_cons, IH. reflexivity.
Qed.

Lemma string_app_nil_r (a : string) : a +:+ "" = a.
Proof. induction a as [|x a IH]; [reflexivity|]. rewrite string_app_cons, IH. reflexivity. Qed.

Lemma cur_files_set (w : World) (r : RepoFiles) : cur_files (set_cur_files w r) = r.
Proof. unfold cur_files, set_cur_files, upd_files; simpl. now rewrite String.eqb_refl. Qed.

Lemma files_set_other (w : World) (r : RepoFiles) (d : string) :
  d <> cwd w -> files (set_cur_files w r) d = files w d.
Proof.
  intros Hd. unfold set_cur_files, upd_files; simpl.
  now rewrite (proj2 (String.eqb_neq d (cwd w)) Hd).
Qed.

Lemma substring_prefix (k : nat) (s : string) : exists q, s = substring 0 k s +:+ q.
Proof.
  revert k. induction s as [|x s IH]; intros k.
  - exists "". destruct k; reflexivity.
  - destruct k as [|k]; simpl.
    + exists (String x s). reflexivity.
    + destruct (IH k) as [q Hq]. exists q. rewrite string_app_cons. now rewrite <- Hq.
Qed.

Lemma bind_ok_inv {A B} (m : M A) (k : A -> M B) (w : World) (b : B) :
  fst ((m ≫= k) w) = ROk b -> exists a w1, m w = (ROk a, w1) /\ fst (k a w1) = ROk b.
Proof.
  unfold mbind, M_bind. destruct (m w) as [[a|e|e] w1]; simpl; [|discriminate..].
  intros H. now exists a, w1.
Qed.

Lemma bind_ok_step {A B} (m : M A) (k : A -> M B) (w : World) (a : A) :
  m w = (ROk a, w) -> (m ≫= k) w = k a w.
Proof. intros H. unfold mbind, M_bind. now rewrite H. Qed.

Lemma appends_still {A} (m : M A) : (forall w, snd (m w) = w) -> Appends m "".
Proof.
  intros H w c Hc. cbv zeta. rewrite !H.
  split; [reflexivity|]. split; [reflexivity|]. split; [reflexivity|]. split; [reflexivity|].
  exists "", "". rewrite string_app_nil_r. split; [exact Hc|]. split; reflexivity.
Qed.

Lemma appends_ret {A} (a : A) : Appends (mret a) "".
Proof. apply appends_still. reflexivity. Qed.

Lemma appends_bind {A B} (m : M A) (k : A -> M B) (a1 a2 : string) :
  Appends m a1 -> (forall x, Appends (k x) a2) -> Appends (m ≫= k) (a1 +:+ a2).
Proof.
  intros Hm Hk w c Hc. cbv zeta.
  destruct (Hm w c Hc) as (Hcwd & Hlog & Hoth & Hdeny & p & q & Hf & Hpq & Hok).
  unfold mbind, M_bind.
  destruct (m w) as [[x|e|e] w1] eqn:Hmw; cbn [fst snd is_ok] in *.
  - specialize (Hok eq_refl). subst q. rewrite string_app_nil_r in Hpq. subst p.
    destruct (Hk x w1 (c +:+ a1) Hf)
      as (Hcwd2 & Hlog2 & Hoth2 & Hdeny2 & p2 & q2 & Hf2 & Hpq2 & Hok2).
    split; [congruence|]. split; [congruence|].
    split; [intros d Hd; rewrite Hoth2 by congruence; now apply Hoth|].
    split; [congruence|].
    exists (a1 +:+ p2), q2. split; [now rewrite Hf2, string_app_assoc|].
    split; [now rewrite string_app_assoc, Hpq2 | exact Hok2].
  - split; [exact Hcwd|]. split; [exact Hlog|]. split; [exact Hoth|]. split; [exact Hdeny|].
    exists p, (q +:+ a2). split; [exact Hf|].
    split; [now rewrite <- string_app_assoc, Hpq | discriminate].
  - split; [exact Hcwd|]. split; [exact Hlog|]. split; [exact Hoth|]. split; [exact Hdeny|].
    exists p, (q +:+ a2). split; [exact Hf|].
    split; [now rewrite <- string_app_assoc, Hpq | discriminate].
Qed.

Lemma appends_open (E : Env) : Appends (open_cargo_append E) "".
Proof.
  apply appends_still. intros w. unfold open_cargo_append.
  destruct (cargo_toml (cur_files w)); [destruct (open_append_ok E (log w) (cwd w))|];
    reflexivity.
Qed.

Lemma appends_writeln (E : Env) (data : string) : Appends (writeln_cargo E data) (data +:+ nl).
Proof.
  intros w c Hc. cbv zeta. unfold writeln_cargo. rewrite Hc.
  destruct (append_write E (log w) (cwd w) c (data +:+ nl)) as [k|]; cbn [fst snd is_ok].
  - split; [reflexivity|]. split; [reflexivity|].
    split; [intros d Hd; now apply files_set_other|].
    split; [now rewrite cur_files_set|].
    destruct (substring_prefix k (data +:+ nl)) as [q Hq].
    exists (substring 0 k (data +:+ nl)), q. rewrite cur_files_set.
    split; [reflexivity|]. split; [symmetry; exact Hq | discriminate].
  - split; [reflexivity|]. split; [reflexivity|].
    split; [intros d Hd; now apply files_set_other|].
    split; [now rewrite cur_files_set|].
    exists (data +:+ nl), "". rewrite cur_files_set.
    split; [reflexivity|]. split; [apply string_app_nil_r | reflexivity].
Qed.

Lemma appends_append_patches (E : Env) (R X : gset string) (cs upd : list Crate) :
  Appends (append_patches E R X cs upd)
    (append_all (map (fun c => patch_line c +:+ nl) (List.filter (applies R X) cs))).
Proof.
  revert upd. induction cs as [|c cs IH]; intros upd; [apply appends_ret|].
  cbn [append_patches List.filter map]. unfold applies at 1.
  destruct (bool_decide (name c ∈ R)), (bool_decide (name c ∈ X)); cbn [andb negb];
    try apply IH.
  apply appends_bind; [apply appends_writeln | intros _; apply IH].
Qed.

Lemma append_patches_result (E : Env) (R X : gset string) (cs upd : list Crate)
    (w : World) (a : list Crate) :
  fst (append_patches E R X cs upd w) = ROk a -> a = upd ++ List.filter (applies R X) cs.
Proof.
  revert upd w. induction cs as [|c cs IH]; intros upd w.
  - intros [= <-]. now rewrite app_nil_r.
  - cbn [append_patches List.filter]. unfold applies at 1.
    destruct (bool_decide (name c ∈ R)), (bool_decide (name c ∈ X)); cbn [andb negb];
      try apply IH.
    intros H. apply bind_ok_inv in H as (u & w1 & _ & H).
    rewrite (IH _ _ H). now rewrite <- app_assoc.
Qed.

Lemma append_patches_all_written (E : Env) (R X : gset string) (cs upd : list Crate)
    (w : World) (content : string) :
  (forall c b, append_write E (log w) (cwd w) c b = None) ->
  cargo_toml (cur_files w) = Some content ->
  fst (append_patches E R X cs upd w) = ROk (upd ++ List.filter (applies R X) cs).
Proof.
  revert upd w content. induction cs as [|c cs IH]; intros upd w content Hw Hc.
  - cbn. now rewrite app_nil_r.
  - cbn [append_patches List.filter]. unfold applies at 1.
    destruct (bool_decide (name c ∈ R)), (bool_decide (name c ∈ X)); cbn [andb negb];
      try (eapply IH; eassumption).
    unfold mbind at 1, M_bind at 1, writeln_cargo. rewrite Hc, Hw.
    rewrite (IH _ _ (content +:+ (patch_line c +:+ nl))); [now rewrite <- app_assoc | exact Hw|].
    now rewrite cur_files_set.
Qed.

(** C1: on a readable manifest that parses, whenever
    [ensure_patches_in_cargo_toml] returns a list, it is exactly the list of
    the candidates whose name is referenced (in [dependencies] or
    [dev-dependencies]) and not already in [patch.crates-io], in input
    order, and the manifest got exactly their lines appended (after the
    header, if it was missing).  When the file can be opened for appending
    and every write succeeds, it does return that list. *)
Theorem ensure_patches_selects (E : Env) (w : World) (crates : list Crate) (content : string)
    (referenced existing : gset string) :
  cargo_toml (cur_files w) = Some content ->
  parse_referenced_crates (toml_from_str E) content = ROk referenced ->
  parse_existing_patches (toml_from_str E) content = ROk existing ->
  let applied := List.filter (applies referenced existing) crates in
  let header := if str_contains patch_header content then ""
                else nl +:+ patch_header +:+ nl in
  (forall a, fst (ensure_patches_in_cargo_toml E crates w) = ROk a ->
     a = applied /\
     cargo_toml (cur_files (snd (ensure_patches_in_cargo_toml E crates w))) =
       Some (content +:+ header +:+ append_all (map (fun c => patch_line c +:+ nl) applied))) /\
  (open_append_ok E (log w) (cwd w) = true ->
   (forall c b, append_write E (log w) (cwd w) c b = None) ->
   fst (ensure_patches_in_cargo_toml E crates w) = ROk applied).
Proof.
  intros Hc Hr He applied header. unfold ensure_patches_in_cargo_toml.
  rewrite (bind_ok_step _ _ w content) by (unfold read_cargo; now rewrite Hc).
  rewrite (bind_ok_step _ _ w referenced) by (unfold lift; now rewrite Hr).
  rewrite (bind_ok_step _ _ w existing) by (unfold lift; now rewrite He).
  assert (Hap : Appends
     (open_cargo_append E;;
      (if negb (str_contains patch_header content)
       then writeln_cargo E (nl +:+ patch_header) else mret tt);;
      append_patches E referenced existing crates [])
     (header +:+ append_all (map (fun c => patch_line c +:+ nl) applied))).
  { change (header +:+ append_all (map (fun c => patch_line c +:+ nl) applied)) with
      ("" +:+ (header +:+ append_all (map (fun c => patch_line c +:+ nl) applied))).
    apply appends_bind; [apply appends_open | intros _].
    apply appends_bind; [|intros _; apply appends_append_patches].
    subst header. destruct (str_contains patch_header content); cbn [negb].
    - apply appends_ret.
    - rewrite <- (string_app_assoc nl). apply appends_writeln. }
  split.
  - intros a Ha.
    destruct (Hap w content Hc) as (_ & _ & _ & _ & p & q & Hf & Hpq & Hok).
    rewrite Ha in Hok. specialize (Hok eq_refl). subst q.
    rewrite string_app_nil_r in Hpq. subst p. split; [|exact Hf].
    apply bind_ok_inv in Ha as (u1 & w1 & _ & Ha).
    apply bind_ok_inv in Ha as (u2 & w2 & _ & Ha).
    apply append_patches_result in Ha. exact Ha.
  - intros Ho Hw. unfold mbind at 1, M_bind at 1, open_cargo_append.
    rewrite Hc, Ho. unfold mbind at 1, M_bind at 1.
    destruct (negb (str_contains patch_header content)); cbn [fst].
    + unfold writeln_cargo. rewrite Hc, Hw.
      eapply append_patches_all_written; [exact Hw | now rewrite cur_files_set].
    + eapply append_patches_all_written; eassumption.
Qed.

Lemma ensure_patches_selects_witness :
  cargo_toml (cur_files (world_with manifest_patch_not_last)) = Some manifest_patch_not_last /\
  parse_referenced_crates (toml_from_str env_ok) manifest_patch_not_last = ROk {["foo"]} /\
  parse_existing_patches (toml_from_str env_ok) manifest_patch_not_last = ROk {["bar"]} /\
  open_append_ok env_ok (log (world_with manifest_patch_not_last))
    (cwd (world_with manifest_patch_not_last)) = true /\
  (forall c b, append_write env_ok (log (world_with manifest_patch_not_last))
                 (cwd (world_with manifest_patch_not_last)) c b = None) /\
  fst (ensure_patches_in_cargo_toml env_ok [foo; bar] (world_with manifest_patch_not_last)) =
    ROk (List.filter (applies {["foo"]} {["bar"]}) [foo; bar]).
Proof.
  assert (H1 : cargo_toml (cur_files (world_with manifest_patch_not_last)) =
               Some manifest_patch_not_last) by reflexivity.
  assert (H2 : parse_referenced_crates (toml_from_str env_ok) manifest_patch_not_last =
               ROk {["foo"]}).
  { vm_compute. reflexivity. }
  assert (H3 : parse_existing_patches (toml_from_str env_ok) manifest_patch_not_last =
               ROk {["bar"]}).
  { vm_compute. reflexivity. }
  assert (H4 : open_append_ok env_ok (log (world_with manifest_patch_not_last))
                 (cwd (world_with manifest_patch_not_last)) = true) by reflexivity.
  assert (H5 : forall c b, append_write env_ok (log (world_with manifest_patch_not_last))
                             (cwd (world_with manifest_patch_not_last)) c b = None)
    by reflexivity.
  split; [exact H1|]. split; [exact H2|]. split; [exact H3|]. split; [exact H4|].
  split; [exact H5|].
  exact (proj2 (ensure_patches_selects env_ok _ [foo; bar] _ _ _ H1 H2 H3) H4 H5).
Defined.

(** C7: when the manifest does not parse, [ensure_patches_in_cargo_toml]
    fails before opening the file: the world, and so the manifest, is
    unchanged. *)
Theorem ensure_patches_parse_failure_no_write (E : Env) (w : World) (crates : list Crate)
    (content : string) :
  cargo_toml (cur_files w) = Some content ->
  toml_from_str E content = None ->
  ensure_patches_in_cargo_toml E crates w = (RErr "Failed to parse Cargo.toml", w).
Proof.
  intros Hc Hp.
  unfold ensure_patches_in_cargo_toml, mbind, M_bind, read_cargo, lift.
  rewrite Hc. unfold parse_referenced_crates. now rewrite Hp.
Qed.

Lemma ensure_patches_parse_failure_no_write_witness :
  toml_from_str env_ok manifest_broken = None /\
  ensure_patches_in_cargo_toml env_ok [foo] (world_with manifest_broken) =
    (RErr "Failed to parse Cargo.toml", world_with manifest_broken).
Proof.
  assert (Hp : toml_from_str env_ok manifest_broken = None) by (vm_compute; reflexivity).
  split; [exact Hp|].
  exact (ensure_patches_parse_failure_no_write env_ok (world_with manifest_broken) [foo]
           manifest_broken eq_refl Hp).
Defined.

(** C2 (failing input): the override section is followed by another table.
    Both runs append [foo]'s line at the end of the file, inside
    [[profile.release]], so the second run applies [foo] again and changes
    the text. *)
Theorem ensure_patches_rerun_changes_manifest :
  let w0 := world_with manifest_patch_not_last in
  let '(r1, w1) := ensure_patches_in_cargo_toml env_ok [foo] w0 in
  let '(r2, w2) := ensure_patches_in_cargo_toml env_ok [foo] w1 in
  r1 = ROk [foo] /\ r2 = ROk [foo] /\
  cargo_toml (cur_files w2) <> cargo_toml (cur_files w1).
Proof.
  vm_compute. split; [reflexivity|]. split; [reflexivity|]. discriminate.
Qed.

(** C3 (failing input): a candidate list naming [foo] twice on a manifest
    without override section writes [foo] twice into the new section (and
    the manifest no longer parses). *)
Theorem duplicate_candidates_duplicate_override :
  let w0 := world_with manifest_plain in
  let '(r, w1) := ensure_patches_in_cargo_toml env_ok [foo; foo] w0 in
  override_section_keys manifest_plain = [] /\
  r = ROk [foo; foo] /\
  option_map override_section_keys (cargo_toml (cur_files w1)) = Some ["foo"; "foo"] /\
  option_map (toml_from_str env_ok) (cargo_toml (cur_files w1)) = Some None.
Proof. vm_compute. repeat split. Qed.

Lemma tbl_get_set_eq (k : string) (v : Value) (t : table) : tbl_get k (tbl_set k v t) = Some v.
Proof.
  induction t as [|[k' v'] t IH]; simpl.
  - now rewrite String.eqb_refl.
  - destruct (String.eqb k k') eqn:Hk; simpl.
    + now rewrite String.eqb_refl.
    + now rewrite Hk.
Qed.

Lemma strings_of_map (l : list string) : strings_of (map VString l) = Some l.
Proof. induction l as [|s l IH]; simpl; [reflexivity | now rewrite IH]. Qed.

Lemma elem_of_fold_union (u : string) (l : list string) (s : gset string) :
  u ∈ fold_left (fun acc r => {[r]} ∪ acc) l s <-> u ∈ l \/ u ∈ s.
Proof.
  revert s; induction l as [|r l IH]; intros s; simpl.
  - split; [now right | intros [H|H]; [inversion H | exact H]].
  - rewrite IH. set_solver.
Qed.

Lemma elem_of_git_repos_of (u : string) (cs : list Crate) (root : table) :
  u ∈ git_repos_of cs root <-> u ∈ map repo_url cs \/ u ∈ existing_allow_git root.
Proof.
  unfold git_repos_of. rewrite elem_of_fold_union, elem_of_list_to_set. tauto.
Qed.

(** C8: without [deny.toml], [update_deny_toml] changes nothing (it does
    not create the file); when it succeeds on a [deny.toml] document, the
    written [sources.allow-git] list holds every URL of the previous list
    and of the applied overrides, each exactly once, and nothing else. *)
Theorem update_deny_toml_union (E : Env) (w : World) (updated_crates : list Crate) :
  (deny_toml (cur_files w) = None ->
   update_deny_toml E updated_crates w = (ROk tt, w)) /\
  (forall root w',
   deny_toml (cur_files w) = Some (TomlDoc root) ->
   update_deny_toml E updated_crates w = (ROk tt, w') ->
   exists root' urls,
     deny_toml (cur_files w') = Some (TomlDoc root') /\
     allow_git_urls root' = Some urls /\
     NoDup urls /\
     forall u, u ∈ urls <-> u ∈ map repo_url updated_crates \/ u ∈ existing_allow_git root).
Proof.
  split.
  - intros Hd. unfold update_deny_toml. now rewrite Hd.
  - intros root w' Hd Hu. unfold update_deny_toml in Hu. rewrite Hd in Hu.
    set (sources := match tbl_get "sources" root with Some v => v | None => VTable [] end) in Hu.
    set (g := git_repos_of updated_crates root) in Hu.
    destruct (as_table sources) as [src|] eqn:Hs; [|discriminate].
    set (root' := tbl_set "sources"
                    (VTable (tbl_set "allow-git" (VArray (map VString (set_order E (log w) g))) src))
                    root) in Hu.
    destruct (pretty_ok E root'); [|discriminate].
    destruct (write_deny E (log w) (cwd w) root'); [discriminate|].
    injection Hu as <-.
    exists root', (set_order E (log w) g).
    split; [|split; [|split]].
    + now rewrite cur_files_set.
    + unfold allow_git_urls, root'. rewrite !tbl_get_set_eq. apply strings_of_map.
    + rewrite (set_order_perm E (log w) g). apply NoDup_elements.
    + intros u. rewrite (set_order_perm E (log w) g), elem_of_elements.
      apply elem_of_git_repos_of.
Qed.

Lemma update_deny_toml_union_witness :
  deny_toml (cur_files world_with_deny) = Some (TomlDoc deny_with_foo) /\
  update_deny_toml env_ok [foo; bar] world_with_deny =
    (ROk tt, snd (update_deny_toml env_ok [foo; bar] world_with_deny)) /\
  exists root' urls,
    deny_toml (cur_files (snd (update_deny_toml env_ok [foo; bar] world_with_deny))) =
      Some (TomlDoc root') /\
    allow_git_urls root' = Some urls /\ NoDup urls /\
    forall u, u ∈ urls <-> u ∈ map repo_url [foo; bar] \/ u ∈ existing_allow_git deny_with_foo.
Proof.
  assert (H1 : deny_toml (cur_files world_with_deny) = Some (TomlDoc deny_with_foo))
    by reflexivity.
  assert (H2 : update_deny_toml env_ok [foo; bar] world_with_deny =
               (ROk tt, snd (update_deny_toml env_ok [foo; bar] world_with_deny)))
    by reflexivity.
  split; [exact H1|]. split; [exact H2|].
  exact (proj2 (update_deny_toml_union env_ok world_with_deny [foo; bar]) deny_with_foo _ H1 H2).
Defined.

(** ** Commands run by a computation *)

Create HintDb nolog.

Lemma nolog_bind {A B} (m : M A) (k : A -> M B) :
  NoLog m -> (forall a, NoLog (k a)) -> NoLog (m ≫= k).
Proof.
  intros Hm Hk w. unfold mbind, M_bind.
  pose proof (Hm w) as Hw.
  destruct (m w) as [[a|e|e] w'] eqn:Hmw; simpl in *; [rewrite Hk|..]; exact Hw.
Qed.

Lemma nolog_ret {A} (a : A) : NoLog (mret a).
Proof. intros w. reflexivity. Qed.

Lemma nolog_fail {A} (msg : string) : NoLog (@fail A msg).
Proof. intros w. reflexivity. Qed.

Lemma nolog_lift {A} (r : res A) : NoLog (lift r).
Proof. intros w. reflexivity. Qed.

Lemma nolog_expect {A} (o : option A) (msg : string) : NoLog (expect o msg).
Proof. intros w. unfold expect. destruct o; reflexivity. Qed.

Lemma nolog_read_cargo : NoLog read_cargo.
Proof. intros w. unfold read_cargo. destruct (cargo_toml (cur_files w)); reflexivity. Qed.

Lemma nolog_open_cargo_append (E : Env) : NoLog (open_cargo_append E).
Proof.
  intros w. unfold open_cargo_append.
  destruct (cargo_toml (cur_files w)); [destruct (open_append_ok _ _ _)|]; reflexivity.
Qed.

Lemma nolog_writeln_cargo (E : Env) (data : string) : NoLog (writeln_cargo E data).
Proof.
  intros w. unfold writeln_cargo.
  destruct (cargo_toml (cur_files w)); [destruct (append_write _ _ _ _ _)|]; reflexivity.
Qed.

Lemma nolog_set_current_dir (E : Env) (dir : string) : NoLog (set_current_dir E dir).
Proof. intros w. unfold set_current_dir. destruct (chdir_ok E dir); reflexivity. Qed.

Lemma nolog_catch {A} (m : M A) : NoLog m -> NoLog (catch m).
Proof.
  intros Hm w. unfold catch. pose proof (Hm w) as Hw.
  destruct (m w) as [[a|e|e] w'] eqn:Hmw; exact Hw.
Qed.

Lemma nolog_update_deny_toml (E : Env) (cs : list Crate) : NoLog (update_deny_toml E cs).
Proof.
  intros w. unfold update_deny_toml.
  destruct (deny_toml (cur_files w)) as [[root|t|]|]; try reflexivity.
  destruct (as_table _); [|reflexivity].
  destruct (pretty_ok _ _); [|reflexivity].
  destruct (write_deny _ _ _ _); reflexivity.
Qed.

#[local] Hint Resolve nolog_bind nolog_ret nolog_fail nolog_lift nolog_expect
  nolog_read_cargo nolog_open_cargo_append nolog_writeln_cargo nolog_set_current_dir nolog_catch
  nolog_update_deny_toml : nolog.

Lemma nolog_try_set_current_dir (E : Env) (dir : string) :
  NoLog (try_set_current_dir E dir).
Proof. unfold try_set_current_dir. auto with nolog. Qed.

Lemma nolog_append_patches (E : Env) (R X : gset string) (cs upd : list Crate) :
  NoLog (append_patches E R X cs upd).
Proof.
  revert upd. induction cs as [|c cs IH]; intros upd; simpl; [auto with nolog|].
  destruct (_ && _); auto with nolog.
Qed.

Lemma nolog_ensure (E : Env) (crates : list Crate) : NoLog (ensure_patches_in_cargo_toml E crates).
Proof.
  unfold ensure_patches_in_cargo_toml.
  apply nolog_bind; [auto with nolog|intros c].
  apply nolog_bind; [auto with nolog|intros r].
  apply nolog_bind; [auto with nolog|intros x].
  apply nolog_bind; [auto with nolog|intros u].
  apply nolog_bind; [destruct (negb _); auto with nolog|intros v].
  apply nolog_append_patches.
Qed.

Lemma nolog_list_relevant_crates (E : Env) (crates : list Crate) :
  NoLog (list_relevant_crates E crates).
Proof. unfold list_relevant_crates. auto 6 with nolog. Qed.

#[local] Hint Resolve nolog_try_set_current_dir nolog_ensure nolog_list_relevant_crates : nolog.

Lemma runsonly_nolog {A} (P : list string -> Prop) (m : M A) : NoLog m -> RunsOnly P m.
Proof. intros H w. exists []. rewrite app_nil_r. split; [apply H | constructor]. Qed.

Lemma runsonly_bind {A B} (P : list string -> Prop) (m : M A) (k : A -> M B) :
  RunsOnly P m -> (forall a, RunsOnly P (k a)) -> RunsOnly P (m ≫= k).
Proof.
  intros Hm Hk w. unfold mbind, M_bind.
  destruct (Hm w) as [new1 [Hl1 Hf1]].
  destruct (m w) as [[a|e|e] w1] eqn:Hmw; simpl in *.
  - destruct (Hk a w1) as [new2 [Hl2 Hf2]]. exists (new1 ++ new2).
    split; [rewrite Hl2, Hl1, app_assoc; reflexivity | apply Forall_app; tauto].
  - exists new1. tauto.
  - exists new1. tauto.
Qed.

Lemma runsonly_run_checked (P : list string -> Prop) (E : Env) (cmd : list string)
    (msg : string) :
  P cmd -> RunsOnly P (run_checked E cmd msg).
Proof.
  intros HP w. unfold run_checked, mbind, M_bind, status.
  destruct (run_cmd E (log w) (cwd w) cmd (files w (cwd w))) as [[c|] f'];
    simpl; eexists; (split; [reflexivity | repeat constructor; exact HP]).
Qed.

(** ** Stopping at a launch failure *)










(** C4 (counterexample): [bar] is not referenced, so the patch step applies
    nothing; with [execute] the branch is still pushed and a pull request
    is still opened. *)
Theorem zero_overrides_still_push_and_pr :
  fst (ensure_patches_in_cargo_toml env_ok [bar] (world_with manifest_plain)) = ROk [] /\
  let '(r, w') := patch_crate env_ok "/a" "patch-iroh-main" [bar] true
                    (world_with manifest_plain) in
  r = ROk tt /\
  map le_cmd (log w') =
    [["git"; "rev-parse"; "--verify"; "patch-iroh-main"];
     ["git"; "push"; "origin"; "patch-iroh-main"];
     ["gh"; "pr"; "create"; "--title"; "chore: patch to use main branch of iroh dependencies";
      "--body"; crate_list_body []; "--base"; "main"; "--head"; "patch-iroh-main"]].
Proof. vm_compute. split; [reflexivity|]. split; reflexivity. Qed.

(** C4 (as amended): when the patch step applied no override, [patch_crate]
    runs no dependency update, no policy update and no commit: without
    [execute] it ends in success at once, with [execute] it goes on with
    [publish], which only pushes the branch and opens the pull request. *)
Theorem zero_overrides_skip_update_and_commit (E : Env) (branch_name : string)
    (crates : list Crate) (execute : bool) (w : World) :
  patch_after_ensure E branch_name crates execute [] w =
    (if execute then publish E branch_name crates w else (ROk tt, w)) /\
  RunsOnly (fun cmd => cmd = ["git"; "push"; "origin"; branch_name] \/
                       take 3 cmd = ["gh"; "pr"; "create"])
    (publish E branch_name crates).
Proof.
  split.
  - unfold patch_after_ensure, mbind, M_bind, mret, M_ret.
    rewrite bool_decide_eq_true_2 by reflexivity. simpl.
    destruct execute; reflexivity.
  - unfold publish, push_branch, create_pull_request.
    apply runsonly_bind; [|intros _].
    { apply runsonly_bind; [apply runsonly_run_checked; now left | intros _].
      apply runsonly_nolog, nolog_ret. }
    apply runsonly_bind; [apply runsonly_nolog, nolog_read_cargo | intros c].
    apply runsonly_bind; [apply runsonly_nolog, nolog_lift | intros x].
    apply runsonly_bind; [apply runsonly_run_checked; now right | intros _].
    apply runsonly_nolog, nolog_ret.
Qed.

(** C5 (failing input): a non-zero exit status does not stop the
    repository's processing.  The branch probe exits with status 1 (no such
    branch), yet [patch_crate] goes on with six more commands and succeeds;
    and a [git commit] that exits with status 1 is followed by the push and
    the pull request, and the repository is counted as patched. *)
Theorem nonzero_exit_does_not_abort :
  (let '(r, w') := patch_crate env_new_branch "/a" "patch-iroh-main" [foo] false
                     (world_with manifest_plain) in
   r = ROk tt /\
   head (log w') =
     Some (mkEntry "/a" ["git"; "rev-parse"; "--verify"; "patch-iroh-main"] (IoOk 1)) /\
   length (log w') = 7%nat) /\
  (let '(r, w') := patch_crate env_commit_fails "/a" "patch-iroh-main" [foo] true
                     (world_with manifest_plain) in
   r = ROk tt /\
   map (fun e => (take 2 (le_cmd e), le_res e)) (log w') =
     [(["git"; "rev-parse"], IoOk 0); (["cargo"; "update"], IoOk 0);
      (["git"; "add"], IoOk 0); (["git"; "commit"], IoOk 1);
      (["git"; "push"], IoOk 0); (["gh"; "pr"], IoOk 0)]).
Proof. vm_compute. repeat split. Qed.

(** C6 (failing input): a configured directory ["/"] passes validation, but
    its [patch_crate] panics, which ends the whole batch: ["/b"] is never
    processed.  Likewise, in [cleanup_branches], a [git checkout main] that
    cannot be launched in ["/a"] ends the batch before ["/b"]. *)
Theorem one_repository_aborts_batch :
  validate_directories ["/a"; "/"; "/b"] = ROk tt /\
  (let '(r, w') := patch_crates env_ok ["/a"; "/"; "/b"] "patch-iroh-main" [foo] false
                     (world_with manifest_plain) in
   r = RPanic "checked" /\ map le_dir (log w') = ["/a"; "/a"; "/a"; "/a"]) /\
  (let '(r, w') := cleanup_branches (env_spawn_fails_in "/a") ["/a"; "/b"]
                     (world_with manifest_plain) in
   r = RErr "Failed to checkout `main` branch" /\ map le_dir (log w') = ["/a"]).
Proof. vm_compute. repeat split. Qed.

(** ** Panics in the batch loops *)

Lemma noerr_ret {A} (a : A) : NoErr (mret a).
Proof. intros w e. discriminate. Qed.

Lemma noerr_catch {A} (m : M A) : NoErr (catch m).
Proof. intros w e. unfold catch. destruct (m w) as [[a|e'|e'] w']; discriminate. Qed.

Lemma noerr_expect {A} (o : option A) (msg : string) : NoErr (expect o msg).
Proof. intros w e. unfold expect. destruct o; discriminate. Qed.

Lemma noerr_bind {A B} (m : M A) (k : A -> M B) :
  NoErr m -> (forall a, NoErr (k a)) -> NoErr (m ≫= k).
Proof.
  intros Hm Hk w e. unfold mbind, M_bind. pose proof (Hm w e) as Hw.
  destruct (m w) as [[a|e'|e'] w'] eqn:Hmw; simpl in *.
  - apply Hk.
  - intros [= ->]. now apply Hw.
  - discriminate.
Qed.

Lemma noerr_update_one (E : Env) (crates : list Crate) : NoErr (update_one E crates).
Proof.
  unfold update_one.
  repeat first [apply noerr_ret | apply noerr_catch | apply noerr_bind | intros [?|?]].
Qed.

Lemma noerr_reset_one (E : Env) : NoErr (reset_one E).
Proof. unfold reset_one. apply noerr_bind; [apply noerr_catch | intros; apply noerr_ret]. Qed.

Lemma try_set_current_dir_spec (E : Env) (dir : string) (w : World) :
  try_set_current_dir E dir w =
    if chdir_ok E dir then (ROk true, mkWorld dir (files w) (log w)) else (ROk false, w).
Proof.
  unfold try_set_current_dir, catch, set_current_dir, mbind, M_bind.
  destruct (chdir_ok E dir); reflexivity.
Qed.

(** A panic, whatever its message. *)
Definition panics {A} (r : res A) : Prop := exists msg, r = RPanic msg.

Lemma update_loop_panics (E : Env) (crates : list Crate) (d : string) :
  file_name d = None ->
  forall dirs rep w, d ∈ dirs -> panics (fst (update_loop E dirs crates rep w)).
Proof.
  intros Hd dirs. induction dirs as [|d0 rest IH]; intros rep w Hin;
    [apply not_elem_of_nil in Hin; contradiction|].
  simpl. unfold mbind at 1, M_bind at 1, expect at 1.
  destruct (file_name d0) as [n|] eqn:Hd0; [|now exists "checked"].
  assert (Hrest : d ∈ rest).
  { apply elem_of_cons in Hin as [->|Hin]; [congruence | exact Hin]. }
  unfold mbind at 1, M_bind at 1. rewrite try_set_current_dir_spec.
  destruct (chdir_ok E d0); [|now apply IH].
  unfold mbind, M_bind.
  pose proof (noerr_update_one E crates (mkWorld d0 (files w) (log w))) as Hne.
  destruct (update_one E crates (mkWorld d0 (files w) (log w))) as [[o|e|e] w2];
    simpl in Hne.
  - apply IH, Hrest.
  - exfalso. now apply (Hne e).
  - now exists e.
Qed.

Lemma reset_loop_panics (E : Env) (d : string) :
  file_name d = None ->
  forall dirs fs ss w, d ∈ dirs -> panics (fst (reset_loop E dirs fs ss w)).
Proof.
  intros Hd dirs. induction dirs as [|d0 rest IH]; intros fs ss w Hin;
    [apply not_elem_of_nil in Hin; contradiction|].
  simpl. unfold mbind at 1, M_bind at 1, expect at 1.
  destruct (file_name d0) as [n|] eqn:Hd0; [|now exists "checked"].
  assert (Hrest : d ∈ rest).
  { apply elem_of_cons in Hin as [->|Hin]; [congruence | exact Hin]. }
  unfold mbind at 1, M_bind at 1. rewrite try_set_current_dir_spec.
  destruct (chdir_ok E d0); [|now apply IH].
  unfold mbind, M_bind.
  pose proof (noerr_reset_one E (mkWorld d0 (files w) (log w))) as Hne.
  destruct (reset_one E (mkWorld d0 (files w) (log w))) as [[b|e|e] w2];
    simpl in Hne.
  - destruct b; apply IH, Hrest.
  - exfalso. now apply (Hne e).
  - now exists e.
Qed.

Lemma report_names_panics (d : string) :
  file_name d = None ->
  forall ds w, d ∈ ds -> panics (fst (report_names ds w)).
Proof.
  intros Hd ds. induction ds as [|d0 rest IH]; intros w Hin;
    [apply not_elem_of_nil in Hin; contradiction|].
  simpl. unfold mbind at 1, M_bind at 1, expect at 1.
  destruct (file_name d0) as [n|] eqn:Hd0; [|now exists unwrap_msg].
  assert (Hrest : d ∈ rest).
  { apply elem_of_cons in Hin as [->|Hin]; [congruence | exact Hin]. }
  unfold mbind at 1, M_bind at 1.
  destruct (IH w Hrest) as [msg Hm].
  destruct (report_names rest w) as [r w2]. simpl in Hm. subst r. now exists msg.
Qed.

Lemma noerr_report_names (ds : list string) : NoErr (report_names ds).
Proof.
  induction ds as [|d ds IH]; simpl; [apply noerr_ret|].
  apply noerr_bind; [apply noerr_expect | intros n].
  apply noerr_bind; [apply IH | intros; apply noerr_ret].
Qed.

(** Every directory of the loop ends in one of the two buckets, unless the
    loop panics. *)
Lemma patch_loop_buckets (E : Env) (branch_name : string) (crates : list Crate)
    (execute : bool) (d : string) :
  forall dirs s0 u0 w, d ∈ dirs \/ d ∈ s0 \/ d ∈ u0 ->
  panics (fst (patch_loop E dirs branch_name crates execute s0 u0 w)) \/
  exists s u w', patch_loop E dirs branch_name crates execute s0 u0 w = (ROk (s, u), w') /\
                 (d ∈ s \/ d ∈ u).
Proof.
  intros dirs. induction dirs as [|d0 rest IH]; intros s0 u0 w Hin.
  - right. exists s0, u0, w. split; [reflexivity|].
    destruct Hin as [Hin|Hin]; [apply not_elem_of_nil in Hin; contradiction | exact Hin].
  - simpl. unfold mbind, M_bind, catch.
    destruct (patch_crate E d0 branch_name crates execute w) as [[x|e|e] w1].
    + apply IH. rewrite elem_of_app, elem_of_cons in *. set_solver.
    + apply IH. rewrite elem_of_app, elem_of_cons in *. set_solver.
    + left. now exists e.
Qed.

(** C9: a configured absolute directory without final component (such as
    ["/"]) passes the validation of [load_config], yet [patch_crates],
    [update_and_check] and [reset] panic on it (computing its name)
    instead of reporting it in a failure bucket. *)
Theorem rootless_directory_panics (E : Env) (dirs : list string) (d : string)
    (branch_name : string) (crates : list Crate) (execute : bool) (w : World) :
  Forall (fun d' => is_absolute d' = true) dirs ->
  d ∈ dirs -> file_name d = None ->
  validate_directories dirs = ROk tt /\
  panics (fst (patch_crates E dirs branch_name crates execute w)) /\
  panics (fst (update_and_check E dirs crates w)) /\
  panics (fst (reset E dirs w)).
Proof.
  intros Habs Hin Hd. split; [|split; [|split]].
  - clear Hin. induction Habs as [|d' ds Hd' _ IH]; simpl; [reflexivity|].
    now rewrite Hd'.
  - unfold patch_crates, mbind at 1, M_bind at 1.
    destruct (patch_loop_buckets E branch_name crates execute d dirs [] [] w (or_introl Hin))
      as [[msg Hp] | (s & u & w' & Hl & Hsu)].
    + destruct (patch_loop E dirs branch_name crates execute [] [] w) as [r w1].
      simpl in Hp. subst r. now exists msg.
    + rewrite Hl. unfold mbind, M_bind.
      destruct Hsu as [Hs|Hu].
      * destruct (report_names_panics d Hd s w' Hs) as [msg Hm].
        destruct (report_names s w') as [r w2]. simpl in Hm. subst r. now exists msg.
      * pose proof (noerr_report_names s w') as Hne.
        destruct (report_names s w') as [[ns|e|e] w2]; simpl in Hne.
        -- destruct (report_names_panics d Hd u w2 Hu) as [msg Hm].
           destruct (report_names u w2) as [r w3]. simpl in Hm. subst r. now exists msg.
        -- exfalso. now apply (Hne e).
        -- now exists e.
  - exact (update_loop_panics E crates d Hd dirs _ w Hin).
  - exact (reset_loop_panics E d Hd dirs [] [] w Hin).
Qed.

Lemma rootless_directory_panics_witness :
  Forall (fun d' => is_absolute d' = true) ["/a"; "/"] /\ "/" ∈ ["/a"; "/"] /\
  file_name "/" = None /\
  validate_directories ["/a"; "/"] = ROk tt /\
  panics (fst (patch_crates env_ok ["/a"; "/"] "patch-iroh-main" [foo] false
                 (world_with manifest_plain))) /\
  panics (fst (update_and_check env_ok ["/a"; "/"] [foo] (world_with manifest_plain))) /\
  panics (fst (reset env_ok ["/a"; "/"] (world_with manifest_plain))).
Proof.
  assert (H1 : Forall (fun d' => is_absolute d' = true) ["/a"; "/"])
    by (repeat constructor).
  assert (H2 : "/" ∈ ["/a"; "/"]) by (right; left).
  assert (H3 : file_name "/" = None) by reflexivity.
  split; [exact H1|]. split; [exact H2|]. split; [exact H3|].
  exact (rootless_directory_panics env_ok ["/a"; "/"] "/" "patch-iroh-main" [foo] false
           (world_with manifest_plain) H1 H2 H3).
Defined.

(** ** Directories that cannot be entered *)

Lemma bind_ext {A B} (m : M A) (k1 k2 : A -> M B) (w : World) :
  (forall a w', k1 a w' = k2 a w') -> (m ≫= k1) w = (m ≫= k2) w.
Proof.
  intros Hk. unfold mbind, M_bind. destruct (m w) as [[a|e|e] w']; auto.
Qed.

Lemma skip_unenterable (E : Env) (d : string) (w : World) :
  chdir_ok E d = false -> try_set_current_dir E d w = (ROk false, w).
Proof. intros Hc. rewrite try_set_current_dir_spec, Hc. reflexivity. Qed.

(** C10 (failing input): a directory that cannot be entered but has no
    final component ([/x/..]) is not skipped by [update_and_check] or
    [reset]: both panic on its name before trying to enter it, where the
    batch without it reports empty buckets. *)
Lemma unenterable_rootless_directory_panics :
  chdir_ok (env_no_chdir "/x/..") "/x/.." = false /\
  fst (update_and_check (env_no_chdir "/x/..") ["/x/.."] [foo] (world_with manifest_plain))
    = RPanic "checked" /\
  fst (update_and_check (env_no_chdir "/x/..") [] [foo] (world_with manifest_plain))
    = ROk (mkReport [] [] [] []) /\
  fst (reset (env_no_chdir "/x/..") ["/x/.."] (world_with manifest_plain))
    = RPanic "checked" /\
  fst (reset (env_no_chdir "/x/..") [] (world_with manifest_plain)) = ROk ([], []).
Proof. vm_compute. repeat split. Qed.

(** A directory the process cannot enter is skipped by
    [cleanup_branches]: the run over the directories is, in its result,
    its commands and its final state, the run without that directory.  The
    same holds for [update_and_check] and [reset] when the directory has a
    final component, so that no command runs for it and its name lands in
    no bucket. *)
Theorem unenterable_directory_skipped (E : Env) (d : string) (pre post : list string)
    (crates : list Crate) (w : World) :
  chdir_ok E d = false ->
  cleanup_branches E (pre ++ d :: post) w = cleanup_branches E (pre ++ post) w /\
  (file_name d <> None ->
   update_and_check E (pre ++ d :: post) crates w = update_and_check E (pre ++ post) crates w /\
   reset E (pre ++ d :: post) w = reset E (pre ++ post) w).
Proof.
  intros Hc. split; [|intros Hd; split].
  - revert w. induction pre as [|d0 pre IH]; intros w; simpl.
    + unfold mbind at 1, M_bind at 1. rewrite (skip_unenterable E d w Hc).
      reflexivity.
    + apply bind_ext. intros entered w'. apply bind_ext. intros _ w''. apply IH.
  - unfold update_and_check. generalize (mkReport [] [] [] []) as rep.
    revert w. induction pre as [|d0 pre IH]; intros w rep; simpl.
    + destruct (file_name d) as [n|] eqn:Hn; [|congruence].
      unfold mbind at 1, M_bind at 1, expect at 1.
      unfold mbind at 1, M_bind at 1. rewrite (skip_unenterable E d w Hc).
      reflexivity.
    + apply bind_ext. intros n w'. apply bind_ext. intros [|] w''.
      * apply bind_ext. intros o w'''. apply IH.
      * apply IH.
  - unfold reset.
    enough (Hg : forall fs ss w, reset_loop E (pre ++ d :: post) fs ss w =
                                 reset_loop E (pre ++ post) fs ss w) by apply Hg.
    clear w. induction pre as [|d0 pre IH]; intros fs ss w; simpl.
    + destruct (file_name d) as [n|] eqn:Hn; [|congruence].
      unfold mbind at 1, M_bind at 1, expect at 1.
      unfold mbind at 1, M_bind at 1. rewrite (skip_unenterable E d w Hc).
      reflexivity.
    + apply bind_ext. intros n w'. apply bind_ext. intros [|] w''.
      * apply bind_ext. intros [|] w'''; apply IH.
      * apply IH.
Qed.

Lemma unenterable_directory_skipped_witness :
  chdir_ok (env_no_chdir "/x/y") "/x/y" = false /\ file_name "/x/y" <> None /\
  update_and_check (env_no_chdir "/x/y") ["/a"; "/x/y"; "/b"] [foo] (world_with manifest_plain)
    = update_and_check (env_no_chdir "/x/y") ["/a"; "/b"] [foo] (world_with manifest_plain).
Proof.
  assert (Hc : chdir_ok (env_no_chdir "/x/y") "/x/y" = false) by reflexivity.
  assert (Hd : file_name "/x/y" <> None) by discriminate.
  split; [exact Hc|]. split; [exact Hd|].
  exact (proj1 (proj2 (unenterable_directory_skipped (env_no_chdir "/x/y") "/x/y"
                         ["/a"] ["/b"] [foo] (world_with manifest_plain) Hc) Hd)).
Defined.

(* ================================================================== *)
(** * Further properties of the code *)

(** ** Loading the configuration *)

(** The error of [load_config] names the first directory that is not
    absolute. *)
Theorem load_config_first_relative (path config_content : string)
    (decode : string -> option Config) (config : Config) (pre post : list string) (d : string) :
  decode config_content = Some config ->
  directories config = pre ++ d :: post ->
  Forall (fun d' => is_absolute d' = true) pre ->
  is_absolute d = false ->
  load_config path (Some config_content) decode =
    RErr ("Directory path '" +:+ d +:+ "' is not absolute").
Proof.
  intros Hdec Hdirs Hpre Hd. simpl. rewrite Hdec, Hdirs. clear Hdirs.
  induction Hpre as [|d' pre Hd' _ IH]; simpl; [now rewrite Hd|].
  now rewrite Hd'.
Qed.

Lemma load_config_first_relative_witness :
  (fun _ : string => Some (mkConfig ["/a"; "b"; "c"] [] "x")) "" =
    Some (mkConfig ["/a"; "b"; "c"] [] "x") /\
  load_config "cfg.toml" (Some "") (fun _ => Some (mkConfig ["/a"; "b"; "c"] [] "x")) =
    RErr ("Directory path '" +:+ "b" +:+ "' is not absolute").
Proof.
  split; [reflexivity|].
  apply (load_config_first_relative "cfg.toml" "" (fun _ => Some (mkConfig ["/a"; "b"; "c"] [] "x"))
           (mkConfig ["/a"; "b"; "c"] [] "x") ["/a"] ["c"] "b");
    [reflexivity | reflexivity | repeat constructor | reflexivity].
Defined.

(** ** The top level *)

Lemma noerr_patch_loop (E : Env) (dirs : list string) (branch_name : string)
    (crates : list Crate) (execute : bool) (s u : list string) :
  NoErr (patch_loop E dirs branch_name crates execute s u).
Proof.
  revert s u. induction dirs as [|d dirs IH]; intros s u; simpl; [apply noerr_ret|].
  apply noerr_bind; [apply noerr_catch | intros [?|?]; apply IH].
Qed.

Lemma noerr_patch_crates (E : Env) (dirs : list string) (branch_name : string)
    (crates : list Crate) (execute : bool) :
  NoErr (patch_crates E dirs branch_name crates execute).
Proof.
  unfold patch_crates. apply noerr_bind; [apply noerr_patch_loop | intros [s u]].
  apply noerr_bind; [apply noerr_report_names | intros ns].
  apply noerr_bind; [apply noerr_report_names | intros; apply noerr_ret].
Qed.

Lemma noerr_try_set_current_dir (E : Env) (dir : string) : NoErr (try_set_current_dir E dir).
Proof. unfold try_set_current_dir. apply noerr_bind; [apply noerr_catch | intros; apply noerr_ret]. Qed.

Lemma noerr_update_loop (E : Env) (dirs : list string) (crates : list Crate)
    (rep : UpdateReport) : NoErr (update_loop E dirs crates rep).
Proof.
  revert rep. induction dirs as [|d dirs IH]; intros rep; simpl; [apply noerr_ret|].
  apply noerr_bind; [apply noerr_expect | intros n].
  apply noerr_bind; [apply noerr_try_set_current_dir | intros [|]]; [|apply IH].
  apply noerr_bind; [apply noerr_update_one | intros; apply IH].
Qed.

Lemma noerr_reset_loop (E : Env) (dirs fs ss : list string) : NoErr (reset_loop E dirs fs ss).
Proof.
  revert fs ss. induction dirs as [|d dirs IH]; intros fs ss; simpl; [apply noerr_ret|].
  apply noerr_bind; [apply noerr_expect | intros n].
  apply noerr_bind; [apply noerr_try_set_current_dir | intros [|]]; [|apply IH].
  apply noerr_bind; [apply noerr_reset_one | intros [|]; apply IH].
Qed.

(** The only error [cleanup_branches] returns. *)
Lemma cleanup_branches_error (E : Env) (dirs : list string) (w : World) (e : string) :
  fst (cleanup_branches E dirs w) = RErr e -> e = "Failed to checkout `main` branch".
Proof.
  revert w. induction dirs as [|d dirs IH]; intros w; simpl; [discriminate|].
  unfold mbind at 1, M_bind at 1.
  pose proof (noerr_try_set_current_dir E d w) as Ht.
  destruct (try_set_current_dir E d w) as [[b|e'|e'] w1]; simpl in Ht;
    [|intros [= ->]; exfalso; now apply (Ht e) | discriminate].
  unfold mbind at 1, M_bind at 1.
  destruct ((if b then cleanup_one E else mret tt) w1) as [[[]|e'|e'] w2] eqn:Hc;
    [apply IH | | discriminate].
  intros [= ->]. destruct b; [|discriminate Hc].
  revert Hc. unfold cleanup_one, run_checked, status, mbind, M_bind.
  destruct (run_cmd E (log w1) (cwd w1) ["git"; "checkout"; "main"] (files w1 (cwd w1)))
    as [[c|] f]; simpl.
  - destruct (run_cmd _ _ _ ["git"; "branch"; "-D"; "patch-iroh-main"] _) as [r1 f1].
    destruct (run_cmd _ _ _ ["git"; "push"; "origin"; "--delete"; "patch-iroh-main"] _)
      as [r2 f2].
    discriminate.
  - now intros [= -> _].
Qed.

(** [main] fails without running any command when the configuration
    cannot be loaded. *)
Theorem main_config_failure_runs_nothing (E : Env) (path : string)
    (config_file : option string) (decode : string -> option Config) (command : Commands)
    (w : World) (e : string) :
  load_config path config_file decode = RErr e ->
  main E path config_file decode command w = (RErr e, w).
Proof. intros H. unfold main, mbind, M_bind, lift. now rewrite H. Qed.

Lemma main_config_failure_runs_nothing_witness :
  load_config "cfg.toml" None (fun _ => None) = RErr ("Failed to read config file at " +:+ "cfg.toml") /\
  main env_ok "cfg.toml" None (fun _ => None) (Patch true) (world_with manifest_plain) =
    (RErr ("Failed to read config file at " +:+ "cfg.toml"), world_with manifest_plain).
Proof.
  split; [reflexivity|].
  apply main_config_failure_runs_nothing. reflexivity.
Defined.

(** Once the configuration is loaded, [patch], [update] and [reset] never
    end in an error (whatever fails in a repository), and [cleanup] only
    with the error of a [git checkout main] that could not be launched. *)
Theorem main_error_sources (E : Env) (path : string) (config_file : option string)
    (decode : string -> option Config) (command : Commands) (w : World) (e : string) :
  fst (main E path config_file decode command w) = RErr e ->
  load_config path config_file decode = RErr e \/
  (command = Cleanup /\ e = "Failed to checkout `main` branch").
Proof.
  unfold main, mbind at 1, M_bind at 1, lift.
  destruct (load_config path config_file decode) as [config|e'|e']; simpl;
    [|intros [= ->]; now left | discriminate].
  intros H. right.
  destruct command as [execute| | |].
  - exfalso. revert H. unfold mbind, M_bind.
    pose proof (noerr_patch_crates E (directories config) (branch_name config)
                  (crates config) execute w e) as Hn.
    destruct (patch_crates _ _ _ _ _ w) as [[x|e1|e1] w1]; simpl in *; try discriminate.
    intros [= ->]. now apply Hn.
  - split; [reflexivity|]. eapply cleanup_branches_error. exact H.
  - exfalso. revert H. unfold mbind, M_bind, update_and_check.
    pose proof (noerr_update_loop E (directories config) (crates config)
                  (mkReport [] [] [] []) w e) as Hn.
    destruct (update_loop _ _ _ _ w) as [[x|e1|e1] w1]; simpl in *; try discriminate.
    intros [= ->]. now apply Hn.
  - exfalso. revert H. unfold mbind, M_bind, reset.
    pose proof (noerr_reset_loop E (directories config) [] [] w e) as Hn.
    destruct (reset_loop _ _ _ _ w) as [[x|e1|e1] w1]; simpl in *; try discriminate.
    intros [= ->]. now apply Hn.
Qed.

Lemma main_error_sources_witness :
  fst (main (env_spawn_fails_in "/a") "cfg.toml" (Some "")
         (fun _ => Some (mkConfig ["/a"; "/b"] [foo] "patch-iroh-main")) Cleanup
         (world_with manifest_plain)) = RErr "Failed to checkout `main` branch" /\
  (load_config "cfg.toml" (Some "")
     (fun _ => Some (mkConfig ["/a"; "/b"] [foo] "patch-iroh-main")) =
     RErr "Failed to checkout `main` branch" \/
   (Cleanup = Cleanup /\ "Failed to checkout `main` branch" = "Failed to checkout `main` branch")).
Proof.
  assert (H : fst (main (env_spawn_fails_in "/a") "cfg.toml" (Some "")
                (fun _ => Some (mkConfig ["/a"; "/b"] [foo] "patch-iroh-main")) Cleanup
                (world_with manifest_plain)) = RErr "Failed to checkout `main` branch")
    by (vm_compute; reflexivity).
  split; [exact H|].
  exact (main_error_sources _ _ _ _ _ _ _ H).
Defined.

(** ** The commands each subcommand runs *)

Lemma runsonly_status (P : list string -> Prop) (E : Env) (cmd : list string) :
  P cmd -> RunsOnly P (status E cmd).
Proof.
  intros HP w. unfold status.
  destruct (run_cmd E (log w) (cwd w) cmd (files w (cwd w))) as [r f'].
  simpl. eexists; split; [reflexivity | repeat constructor; exact HP].
Qed.

Lemma runsonly_catch {A} (P : list string -> Prop) (m : M A) :
  RunsOnly P m -> RunsOnly P (catch m).
Proof.
  intros Hm w. unfold catch. destruct (Hm w) as [new [Hl Hf]].
  destruct (m w) as [[a|e|e] w'] eqn:Hmw; exists new; simpl in *; auto.
Qed.

Lemma nolog_report_names (ds : list string) : NoLog (report_names ds).
Proof. induction ds as [|d ds IH]; simpl; auto with nolog. Qed.

Ltac solve_cmd :=
  cbv beta; simpl;
  first [ solve [repeat split; discriminate]
        | solve [repeat first [left; reflexivity | right]; reflexivity] ].

Ltac runs_tac :=
  repeat first
    [ apply runsonly_nolog; solve [auto 8 with nolog]
    | apply runsonly_run_checked; solve_cmd
    | apply runsonly_status; solve_cmd
    | apply runsonly_catch
    | apply runsonly_bind; [|intros ?; cbv beta iota zeta]
    | match goal with |- RunsOnly _ (if ?c then _ else _) => destruct c end
    | match goal with |- RunsOnly _ (match ?c with _ => _ end) => destruct c end ].

Lemma runsonly_main (P : list string -> Prop) (E : Env) (path : string)
    (config_file : option string) (decode : string -> option Config) (command : Commands) :
  (forall config, RunsOnly P
     (match command with
      | Patch execute =>
          patch_crates E (directories config) (branch_name config) (crates config) execute;;
          mret tt
      | Cleanup => cleanup_branches E (directories config)
      | Update => update_and_check E (directories config) (crates config);; mret tt
      | Reset => reset E (directories config);; mret tt
      end)) ->
  RunsOnly P (main E path config_file decode command).
Proof.
  intros H. unfold main. apply runsonly_bind; [apply runsonly_nolog, nolog_lift | exact H].
Qed.

(** Not a push, not a [gh] command. *)
Definition publishes (cmd : list string) : Prop :=
  take 2 cmd = ["git"; "push"] \/ head cmd = Some "gh".

Lemma runsonly_patch_crate_dry (E : Env) (directory branch_name : string)
    (crates : list Crate) :
  RunsOnly (fun cmd => take 2 cmd <> ["git"; "push"] /\ head cmd <> Some "gh")
    (patch_crate E directory branch_name crates false).
Proof.
  unfold patch_crate, create_and_checkout_branch, patch_after_ensure, cargo_update,
    commit_changes.
  runs_tac.
Qed.

(** A dry run ([patch] without [--execute]) never pushes and never runs
    [gh]: no branch leaves the machine and no pull request is opened. *)
Theorem main_dry_run_never_publishes (E : Env) (path : string)
    (config_file : option string) (decode : string -> option Config) :
  RunsOnly (fun cmd => ~ publishes cmd) (main E path config_file decode (Patch false)).
Proof.
  apply runsonly_main. intros config.
  assert (Hl : forall dirs s u,
    RunsOnly (fun cmd => take 2 cmd <> ["git"; "push"] /\ head cmd <> Some "gh")
      (patch_loop E dirs (branch_name config) (crates config) false s u)).
  { induction dirs as [|d dirs IH]; intros s u; simpl; [runs_tac|].
    apply runsonly_bind; [apply runsonly_catch, runsonly_patch_crate_dry|].
    intros [?|?]; apply IH. }
  intros w. unfold patch_crates.
  assert (Hm : RunsOnly (fun cmd => take 2 cmd <> ["git"; "push"] /\ head cmd <> Some "gh")
    (patch_crates E (directories config) (branch_name config) (crates config) false;;
     mret tt)).
  { unfold patch_crates. apply runsonly_bind; [|intros; runs_tac].
    apply runsonly_bind; [apply Hl | intros [s u]].
    apply runsonly_nolog. auto 8 using nolog_report_names with nolog. }
  destruct (Hm w) as [new [Hlog Hf]]. exists new. split; [exact Hlog|].
  eapply Forall_impl; [exact Hf|]. intros e [H1 H2] [H|H]; auto.
Qed.

Lemma runsonly_cleanup_branches (E : Env) (dirs : list string) :
  RunsOnly (fun cmd => cmd = ["git"; "checkout"; "main"] \/
                       cmd = ["git"; "branch"; "-D"; "patch-iroh-main"] \/
                       cmd = ["git"; "push"; "origin"; "--delete"; "patch-iroh-main"])
    (cleanup_branches E dirs).
Proof.
  induction dirs as [|d dirs IH]; simpl; [runs_tac|].
  apply runsonly_bind; [runs_tac | intros b].
  apply runsonly_bind; [|intros; exact IH].
  destruct b; [unfold cleanup_one|]; runs_tac.
Qed.

(** [cleanup] only checks out [main] and deletes the branch
    [patch-iroh-main], locally and on [origin], whatever branch name the
    configuration gives. *)
Theorem main_cleanup_commands (E : Env) (path : string) (config_file : option string)
    (decode : string -> option Config) :
  RunsOnly (fun cmd => cmd = ["git"; "checkout"; "main"] \/
                       cmd = ["git"; "branch"; "-D"; "patch-iroh-main"] \/
                       cmd = ["git"; "push"; "origin"; "--delete"; "patch-iroh-main"])
    (main E path config_file decode Cleanup).
Proof. apply runsonly_main. intros config. apply runsonly_cleanup_branches. Qed.

(** [update] only checks out and pulls [main], runs [cargo update] and
    runs [cargo check]: it never creates a branch, commits, pushes or opens
    a pull request. *)
Theorem main_update_commands (E : Env) (path : string) (config_file : option string)
    (decode : string -> option Config) :
  RunsOnly (fun cmd => cmd = ["git"; "checkout"; "main"] \/
                       cmd = ["git"; "pull"; "origin"; "main"] \/
                       take 2 cmd = ["cargo"; "update"] \/
                       cmd = ["cargo"; "check"; "--all-targets"; "--all-features"])
    (main E path config_file decode Update).
Proof.
  apply runsonly_main. intros config.
  apply runsonly_bind; [|intros; runs_tac].
  unfold update_and_check. generalize (mkReport [] [] [] []) as rep.
  induction (directories config) as [|d dirs IH]; intros rep; simpl; [runs_tac|].
  apply runsonly_bind; [runs_tac | intros n].
  apply runsonly_bind; [runs_tac | intros b].
  destruct b; [|apply IH].
  apply runsonly_bind; [|intros; apply IH].
  unfold update_one, checkout_and_pull, cargo_update, cargo_check. runs_tac.
Qed.

(** [reset] runs nothing but [git reset --hard]. *)
Theorem main_reset_commands (E : Env) (path : string) (config_file : option string)
    (decode : string -> option Config) :
  RunsOnly (fun cmd => cmd = ["git"; "reset"; "--hard"]) (main E path config_file decode Reset).
Proof.
  apply runsonly_main. intros config.
  apply runsonly_bind; [|intros; runs_tac].
  unfold reset.
  enough (Hg : forall dirs fs ss, RunsOnly (fun cmd => cmd = ["git"; "reset"; "--hard"])
                                    (reset_loop E dirs fs ss)) by apply Hg.
  intros dirs. induction dirs as [|d dirs IH]; intros fs ss; simpl; [runs_tac|].
  apply runsonly_bind; [runs_tac | intros n].
  apply runsonly_bind; [runs_tac | intros b].
  destruct b; [|apply IH].
  apply runsonly_bind; [unfold reset_one; runs_tac | intros [|]; apply IH].
Qed.

(** ** A repository in [patch] *)

Lemma runsonly_status_bind {B} (P : list string -> Prop) (E : Env) (cmd : list string)
    (r : IoResult) (k : IoResult -> M B) :
  P cmd -> (forall l d f, fst (run_cmd E l d cmd f) = r) -> RunsOnly P (k r) ->
  RunsOnly P (status E cmd ≫= k).
Proof.
  intros HP Hr Hk w. unfold mbind, M_bind, status.
  specialize (Hr (log w) (cwd w) (files w (cwd w))).
  destruct (run_cmd E (log w) (cwd w) cmd (files w (cwd w))) as [r' f'].
  simpl in Hr. subst r'. simpl.
  destruct (Hk (mkWorld (cwd w) (upd_files (files w) (cwd w) f')
                  (log w ++ [mkEntry (cwd w) cmd r]))) as [new [Hl Hf]].
  exists (mkEntry (cwd w) cmd r :: new). split.
  - rewrite Hl. simpl. now rewrite <- app_assoc.
  - constructor; [exact HP | exact Hf].
Qed.

(** A directory that cannot be entered fails at once: no command runs
    and nothing changes. *)
Theorem patch_crate_unenterable (E : Env) (directory branch_name : string)
    (crates : list Crate) (execute : bool) (w : World) :
  chdir_ok E directory = false ->
  exists e, patch_crate E directory branch_name crates execute w = (RErr e, w).
Proof.
  intros Hc. unfold patch_crate, mbind at 1, M_bind at 1, set_current_dir.
  rewrite Hc. eexists. reflexivity.
Qed.

Lemma patch_crate_unenterable_witness :
  chdir_ok (env_no_chdir "/x") "/x" = false /\
  exists e, patch_crate (env_no_chdir "/x") "/x" "patch-iroh-main" [foo] true
              (world_with manifest_plain) = (RErr e, world_with manifest_plain).
Proof.
  assert (H : chdir_ok (env_no_chdir "/x") "/x" = false) by reflexivity.
  split; [exact H|]. exact (patch_crate_unenterable _ _ _ _ _ _ H).
Defined.

(** When the branch already exists ([git rev-parse --verify] exits with
    status 0), [patch_crate] neither checks out nor pulls anything: it
    works on the branch as it is. *)
Theorem existing_branch_not_recreated (E : Env) (directory branch_name : string)
    (crates : list Crate) (execute : bool) :
  (forall l d f, fst (run_cmd E l d ["git"; "rev-parse"; "--verify"; branch_name] f) = IoOk 0) ->
  RunsOnly (fun cmd => take 2 cmd <> ["git"; "checkout"] /\ take 2 cmd <> ["git"; "pull"])
    (patch_crate E directory branch_name crates execute).
Proof.
  intros Hp. unfold patch_crate.
  apply runsonly_bind; [runs_tac | intros _].
  apply runsonly_bind; [runs_tac | intros _].
  apply (runsonly_status_bind _ _ _ (IoOk 0)); [solve_cmd | exact Hp |].
  cbv beta iota zeta. change (negb (Z.eqb 0 0)) with false. cbv iota.
  unfold patch_after_ensure, cargo_update, commit_changes, publish, push_branch,
    create_pull_request.
  runs_tac.
Qed.

Lemma existing_branch_not_recreated_witness :
  (forall l d f, fst (run_cmd env_ok l d ["git"; "rev-parse"; "--verify"; "patch-iroh-main"] f)
                 = IoOk 0) /\
  RunsOnly (fun cmd => take 2 cmd <> ["git"; "checkout"] /\ take 2 cmd <> ["git"; "pull"])
    (patch_crate env_ok "/a" "patch-iroh-main" [foo] true).
Proof.
  assert (H : forall l d f, fst (run_cmd env_ok l d ["git"; "rev-parse"; "--verify";
                                                     "patch-iroh-main"] f) = IoOk 0)
    by reflexivity.
  split; [exact H|]. exact (existing_branch_not_recreated _ _ _ _ _ H).
Defined.

(** ** [update]: the one exit status the program checks *)

Lemma cargo_check_ok_log (E : Env) (w : World) :
  fst (cargo_check E w) = ROk tt ->
  log (snd (cargo_check E w)) =
    log w ++ [mkEntry (cwd w) ["cargo"; "check"; "--all-targets"; "--all-features"] (IoOk 0)].
Proof.
  unfold cargo_check, run_checked, status, mbind, M_bind.
  destruct (run_cmd _ _ _ _ _) as [[c|] f]; simpl; [|discriminate].
  destruct (Z.eqb c 0) eqn:Hc; simpl; [|discriminate].
  apply Z.eqb_eq in Hc. subst c. reflexivity.
Qed.

Lemma runsonly_ext {A} (m : M A) (w : World) :
  RunsOnly (fun _ => True) m -> exists new, log (snd (m w)) = log w ++ new.
Proof. intros H. destruct (H w) as [new [Hl _]]. now exists new. Qed.

(** A repository is reported as a success of [update] only when the last
    command run for it is a [cargo check] that exited with status 0. *)
Theorem update_success_after_clean_check (E : Env) (crates : list Crate) (w : World) :
  fst (update_one E crates w) = ROk USuccess ->
  exists pre d,
    log (snd (update_one E crates w)) =
      log w ++ pre ++ [mkEntry d ["cargo"; "check"; "--all-targets"; "--all-features"] (IoOk 0)].
Proof.
  unfold update_one, mbind, M_bind, catch.
  assert (R1 : RunsOnly (fun _ => True) (checkout_and_pull E))
    by (unfold checkout_and_pull; runs_tac).
  assert (R2 : RunsOnly (fun _ => True) (list_relevant_crates E crates))
    by (apply runsonly_nolog; auto with nolog).
  destruct (runsonly_ext _ w R1) as [n1 L1].
  destruct (checkout_and_pull E w) as [[u1|e1|e1] w1]; simpl in L1 |- *; try discriminate.
  destruct (runsonly_ext _ w1 R2) as [n2 L2].
  destruct (list_relevant_crates E crates w1) as [[rc|e2|e2] w2]; simpl in L2 |- *;
    try discriminate.
  assert (R3 : RunsOnly (fun _ => True) (cargo_update E rc))
    by (unfold cargo_update; runs_tac).
  destruct (runsonly_ext _ w2 R3) as [n3 L3].
  destruct (cargo_update E rc w2) as [[u3|e3|e3] w3]; simpl in L3 |- *; try discriminate.
  pose proof (cargo_check_ok_log E w3) as L4.
  destruct (cargo_check E w3) as [[[]|e4|e4] w4]; simpl in L4 |- *; try discriminate.
  intros _. exists (n1 ++ n2 ++ n3), (cwd w3).
  rewrite (L4 eq_refl), L3, L2, L1. now rewrite !app_assoc.
Qed.

Lemma update_success_after_clean_check_witness :
  fst (update_one env_ok [foo] (world_with manifest_plain)) = ROk USuccess /\
  exists pre d,
    log (snd (update_one env_ok [foo] (world_with manifest_plain))) =
      log (world_with manifest_plain) ++ pre ++
      [mkEntry d ["cargo"; "check"; "--all-targets"; "--all-features"] (IoOk 0)].
Proof.
  assert (H : fst (update_one env_ok [foo] (world_with manifest_plain)) = ROk USuccess)
    by reflexivity.
  split; [exact H|]. exact (update_success_after_clean_check _ _ _ H).
Defined.

(** ** [update_deny_toml] *)

Lemma tbl_get_set_neq (k k' : string) (v : Value) (t : table) :
  k <> k' -> tbl_get k (tbl_set k' v t) = tbl_get k t.
Proof.
  intros Hne. induction t as [|[k0 v0] t IH]; simpl.
  - destruct (String.eqb k k') eqn:E; [apply String.eqb_eq in E; congruence | reflexivity].
  - destruct (String.eqb k' k0) eqn:E0; simpl.
    + apply String.eqb_eq in E0. subst k0.
      destruct (String.eqb k k') eqn:E; [apply String.eqb_eq in E; congruence | reflexivity].
    + destruct (String.eqb k k0); [reflexivity | exact IH].
Qed.

(** Whatever happens, [update_deny_toml] runs no command, stays in its
    directory and never touches a [Cargo.toml] nor the files of another
    directory.  Every outcome other than success and a failed write
    ([fs::write] may have truncated or partly written the file) leaves
    everything unchanged. *)
Theorem update_deny_toml_frame (E : Env) (updated_crates : list Crate) (w : World) :
  let w' := snd (update_deny_toml E updated_crates w) in
  cwd w' = cwd w /\ log w' = log w /\
  (forall d, cargo_toml (files w' d) = cargo_toml (files w d)) /\
  (forall d, d <> cwd w -> files w' d = files w d) /\
  (fst (update_deny_toml E updated_crates w) <> ROk tt ->
   fst (update_deny_toml E updated_crates w) <> RErr "Failed to write deny.toml" ->
   w' = w).
Proof.
  cbv zeta. unfold update_deny_toml.
  destruct (deny_toml (cur_files w)) as [[root|t|]|] eqn:Hd; cbn [fst snd];
    try (repeat split; auto; fail).
  destruct (as_table _) as [src|]; cbn [fst snd]; [|repeat split; auto; fail].
  destruct (pretty_ok _ _); cbn [fst snd]; [|repeat split; auto; fail].
  destruct (write_deny _ _ _ _) as [f|]; cbn [fst snd];
    (split; [reflexivity|]; split; [reflexivity|]; split; [|split]);
    try (intros d Hne; now apply files_set_other);
    try (intros H1 H2; congruence);
    (intros d; unfold set_cur_files, upd_files; cbn [files];
     destruct (String.eqb d (cwd w)) eqn:Ed; [apply String.eqb_eq in Ed; now subst d | reflexivity]).
Qed.

Lemma update_deny_toml_frame_witness :
  let w := mkWorld "/a" (fun _ => mkFiles (Some manifest_plain) (Some (TomlUnparsable "x"))) [] in
  update_deny_toml env_ok [foo] w = (RErr "Failed to parse deny.toml", w) /\
  snd (update_deny_toml env_ok [foo] w) = w.
Proof.
  intros w. split; [reflexivity|].
  exact (proj2 (proj2 (proj2 (proj2 (update_deny_toml_frame env_ok [foo] w))))
           ltac:(discriminate) ltac:(discriminate)).
Defined.

(** On success, [update_deny_toml] keeps every top-level entry of
    [deny.toml] other than [sources], and every entry of [sources] other
    than [allow-git] (a missing [sources] table is created empty). *)
Theorem update_deny_toml_keeps_other_keys (E : Env) (updated_crates : list Crate) (w : World)
    (root : table) :
  deny_toml (cur_files w) = Some (TomlDoc root) ->
  fst (update_deny_toml E updated_crates w) = ROk tt ->
  exists root' src src',
    deny_toml (cur_files (snd (update_deny_toml E updated_crates w))) = Some (TomlDoc root') /\
    (forall k, k <> "sources" -> tbl_get k root' = tbl_get k root) /\
    (tbl_get "sources" root = Some (VTable src) \/ (tbl_get "sources" root = None /\ src = [])) /\
    tbl_get "sources" root' = Some (VTable src') /\
    (forall k, k <> "allow-git" -> tbl_get k src' = tbl_get k src).
Proof.
  intros Hd. unfold update_deny_toml. rewrite Hd. cbv zeta.
  destruct (tbl_get "sources" root) as [v|] eqn:Hs.
  - destruct (as_table v) as [src|] eqn:Ht; [|discriminate].
    destruct (pretty_ok _ _); [|discriminate].
    destruct (write_deny _ _ _ _); [discriminate|]. intros _.
    destruct v; try discriminate Ht. injection Ht as ->.
    eexists _, src, _. cbn [snd]. rewrite cur_files_set. cbn [deny_toml].
    split; [reflexivity|]. split; [intros k Hk; now apply tbl_get_set_neq|].
    split; [now left|]. split; [apply tbl_get_set_eq|].
    intros k Hk. now apply tbl_get_set_neq.
  - cbn [as_table].
    destruct (pretty_ok _ _); [|discriminate].
    destruct (write_deny _ _ _ _); [discriminate|]. intros _.
    eexists _, [], _. cbn [snd]. rewrite cur_files_set. cbn [deny_toml].
    split; [reflexivity|]. split; [intros k Hk; now apply tbl_get_set_neq|].
    split; [now right|]. split; [apply tbl_get_set_eq|].
    intros k Hk. simpl. destruct (String.eqb k "allow-git") eqn:Ek; [|reflexivity].
    apply String.eqb_eq in Ek. congruence.
Qed.

Lemma update_deny_toml_keeps_other_keys_witness :
  let w := mkWorld "/a" (fun _ => mkFiles (Some manifest_plain)
             (Some (TomlDoc [("graph", VOther "x");
                             ("sources", VTable [("unknown-git", VString "deny")])]))) [] in
  deny_toml (cur_files w) = Some (TomlDoc [("graph", VOther "x");
                                           ("sources", VTable [("unknown-git", VString "deny")])]) /\
  fst (update_deny_toml env_ok [foo] w) = ROk tt /\
  exists root' src src',
    deny_toml (cur_files (snd (update_deny_toml env_ok [foo] w))) = Some (TomlDoc root') /\
    (forall k, k <> "sources" -> tbl_get k root' =
       tbl_get k [("graph", VOther "x"); ("sources", VTable [("unknown-git", VString "deny")])]) /\
    (tbl_get "sources" [("graph", VOther "x"); ("sources", VTable [("unknown-git", VString "deny")])]
       = Some (VTable src) \/
     (tbl_get "sources" [("graph", VOther "x");
                         ("sources", VTable [("unknown-git", VString "deny")])] = None /\ src = [])) /\
    tbl_get "sources" root' = Some (VTable src') /\
    (forall k, k <> "allow-git" -> tbl_get k src' = tbl_get k src).
Proof.
  intros w.
  assert (H1 : deny_toml (cur_files w) =
                 Some (TomlDoc [("graph", VOther "x");
                                ("sources", VTable [("unknown-git", VString "deny")])]))
    by reflexivity.
  assert (H2 : fst (update_deny_toml env_ok [foo] w) = ROk tt) by reflexivity.
  split; [exact H1|]. split; [exact H2|].
  exact (update_deny_toml_keeps_other_keys env_ok [foo] w _ H1 H2).
Defined.

(** A [sources] entry that is not a table makes [update_deny_toml] panic
    (the [unwrap] of [as_table_mut]), before anything is written. *)
Theorem update_deny_toml_non_table_sources (E : Env) (updated_crates : list Crate) (w : World)
    (root : table) (v : Value) :
  deny_toml (cur_files w) = Some (TomlDoc root) ->
  tbl_get "sources" root = Some v -> as_table v = None ->
  exists msg, update_deny_toml E updated_crates w = (RPanic msg, w).
Proof.
  intros Hd Hs Ht. unfold update_deny_toml. rewrite Hd, Hs, Ht. eexists. reflexivity.
Qed.

Lemma update_deny_toml_non_table_sources_witness :
  let w := mkWorld "/a" (fun _ => mkFiles (Some manifest_plain)
             (Some (TomlDoc [("sources", VString "x")]))) [] in
  deny_toml (cur_files w) = Some (TomlDoc [("sources", VString "x")]) /\
  tbl_get "sources" [("sources", VString "x")] = Some (VString "x") /\
  as_table (VString "x") = None /\
  exists msg, update_deny_toml env_ok [foo] w = (RPanic msg, w).
Proof.
  intros w.
  assert (H1 : deny_toml (cur_files w) = Some (TomlDoc [("sources", VString "x")]))
    by reflexivity.
  assert (H2 : tbl_get "sources" [("sources", VString "x")] = Some (VString "x"))
    by reflexivity.
  assert (H3 : as_table (VString "x") = None) by reflexivity.
  split; [exact H1|]. split; [exact H2|]. split; [exact H3|].
  exact (update_deny_toml_non_table_sources env_ok [foo] w _ _ H1 H2 H3).
Defined.

Lemma omap_as_str_map (l : list string) : omap as_str (map VString l) = l.
Proof.
  induction l as [|s l IH]; [reflexivity|].
  change (omap as_str (map VString (s :: l))) with (s :: omap as_str (map VString l)).
  now rewrite IH.
Qed.

Lemma git_repos_of_rewritten (cs : list Crate) (root src : table) (urls : list string) :
  urls ≡ₚ elements (git_repos_of cs root) ->
  git_repos_of cs
    (tbl_set "sources" (VTable (tbl_set "allow-git" (VArray (map VString urls)) src)) root)
  = git_repos_of cs root.
Proof.
  intros Hp. apply leibniz_equiv. intros u.
  rewrite !elem_of_git_repos_of.
  unfold existing_allow_git. simpl. rewrite tbl_get_set_eq. simpl.
  rewrite tbl_get_set_eq. simpl. rewrite omap_as_str_map, Hp, elem_of_elements.
  rewrite elem_of_git_repos_of. tauto.
Qed.

Lemma update_deny_toml_ok_inv (E : Env) (cs : list Crate) (w : World) (root : table) :
  deny_toml (cur_files w) = Some (TomlDoc root) ->
  fst (update_deny_toml E cs w) = ROk tt ->
  exists src,
    as_table (match tbl_get "sources" root with Some v => v | None => VTable [] end) = Some src /\
    snd (update_deny_toml E cs w) =
      set_cur_files w (mkFiles (cargo_toml (cur_files w))
        (Some (TomlDoc (tbl_set "sources"
           (VTable (tbl_set "allow-git"
              (VArray (map VString (set_order E (log w) (git_repos_of cs root)))) src)) root)))).
Proof.
  intros Hd. unfold update_deny_toml. rewrite Hd. cbv zeta.
  destruct (as_table _) as [src|]; [|discriminate].
  destruct (pretty_ok _ _); [|discriminate].
  destruct (write_deny _ _ _ _); [discriminate|]. intros _. now exists src.
Qed.

(** Running [update_deny_toml] again with the same crates on the document
    it wrote changes at most the order of the [sources.allow-git] list
    (the order in which the [HashSet] is iterated): the second document is
    the first with that list replaced by a permutation of itself. *)
Theorem update_deny_toml_rerun_reorders (E : Env) (updated_crates : list Crate) (w : World)
    (root : table) :
  deny_toml (cur_files w) = Some (TomlDoc root) ->
  fst (update_deny_toml E updated_crates w) = ROk tt ->
  let w1 := snd (update_deny_toml E updated_crates w) in
  fst (update_deny_toml E updated_crates w1) = ROk tt ->
  exists root1 src urls1 urls2,
    deny_toml (cur_files w1) = Some (TomlDoc root1) /\
    tbl_get "sources" root1 = Some (VTable src) /\
    tbl_get "allow-git" src = Some (VArray (map VString urls1)) /\
    deny_toml (cur_files (snd (update_deny_toml E updated_crates w1))) =
      Some (TomlDoc (tbl_set "sources"
                       (VTable (tbl_set "allow-git" (VArray (map VString urls2)) src)) root1)) /\
    urls2 ≡ₚ urls1.
Proof.
  intros Hd H1 w1 H2.
  destruct (update_deny_toml_ok_inv E _ _ _ Hd H1) as (src0 & _ & Hw1).
  change (snd (update_deny_toml E updated_crates w)) with w1 in Hw1.
  clearbody w1.
  set (g := git_repos_of updated_crates root) in Hw1.
  set (urls1 := set_order E (log w) g) in Hw1.
  set (src1 := tbl_set "allow-git" (VArray (map VString urls1)) src0) in Hw1.
  set (root1 := tbl_set "sources" (VTable src1) root) in Hw1.
  assert (Hd1 : deny_toml (cur_files w1) = Some (TomlDoc root1))
    by (rewrite Hw1, cur_files_set; reflexivity).
  assert (Hget : tbl_get "sources" root1 = Some (VTable src1)) by apply tbl_get_set_eq.
  destruct (update_deny_toml_ok_inv E _ _ _ Hd1 H2) as (src1' & Hs1 & Hw2).
  rewrite Hget in Hs1. cbn [as_table] in Hs1. injection Hs1 as <-.
  exists root1, src1, urls1, (set_order E (log w1) (git_repos_of updated_crates root1)).
  split; [exact Hd1|]. split; [exact Hget|]. split; [apply tbl_get_set_eq|].
  split; [rewrite Hw2, cur_files_set; reflexivity|].
  rewrite (set_order_perm E (log w1)).
  assert (Hp : urls1 ≡ₚ elements g) by apply set_order_perm.
  unfold root1, src1. rewrite (git_repos_of_rewritten _ _ _ _ Hp).
  symmetry. exact Hp.
Qed.

Lemma update_deny_toml_rerun_reorders_witness :
  deny_toml (cur_files world_with_deny) = Some (TomlDoc deny_with_foo) /\
  fst (update_deny_toml env_ok [foo; bar] world_with_deny) = ROk tt /\
  fst (update_deny_toml env_ok [foo; bar]
         (snd (update_deny_toml env_ok [foo; bar] world_with_deny))) = ROk tt /\
  exists root1 src urls1 urls2,
    deny_toml (cur_files (snd (update_deny_toml env_ok [foo; bar] world_with_deny))) =
      Some (TomlDoc root1) /\
    tbl_get "sources" root1 = Some (VTable src) /\
    tbl_get "allow-git" src = Some (VArray (map VString urls1)) /\
    deny_toml (cur_files (snd (update_deny_toml env_ok [foo; bar]
                                 (snd (update_deny_toml env_ok [foo; bar] world_with_deny))))) =
      Some (TomlDoc (tbl_set "sources"
                       (VTable (tbl_set "allow-git" (VArray (map VString urls2)) src)) root1)) /\
    urls2 ≡ₚ urls1.
Proof.
  assert (H1 : deny_toml (cur_files world_with_deny) = Some (TomlDoc deny_with_foo))
    by reflexivity.
  assert (H2 : fst (update_deny_toml env_ok [foo; bar] world_with_deny) = ROk tt)
    by (vm_compute; reflexivity).
  assert (H3 : fst (update_deny_toml env_ok [foo; bar]
                      (snd (update_deny_toml env_ok [foo; bar] world_with_deny))) = ROk tt)
    by (vm_compute; reflexivity).
  split; [exact H1|]. split; [exact H2|]. split; [exact H3|].
  exact (update_deny_toml_rerun_reorders env_ok [foo; bar] world_with_deny _ H1 H2 H3).
Defined.

(** ** [ensure_patches_in_cargo_toml] *)

Lemma ensure_patches_unfold (E : Env) (crates : list Crate) (w : World) (content : string)
    (referenced existing : gset string) :
  cargo_toml (cur_files w) = Some content ->
  parse_referenced_crates (toml_from_str E) content = ROk referenced ->
  parse_existing_patches (toml_from_str E) content = ROk existing ->
  ensure_patches_in_cargo_toml E crates w =
    (open_cargo_append E;;
     (if negb (str_contains patch_header content)
      then writeln_cargo E (nl +:+ patch_header) else mret tt);;
     append_patches E referenced existing crates []) w.
Proof.
  intros Hc Hr He. unfold ensure_patches_in_cargo_toml.
  rewrite (bind_ok_step _ _ w content) by (unfold read_cargo; now rewrite Hc).
  rewrite (bind_ok_step _ _ w referenced) by (unfold lift; now rewrite Hr).
  rewrite (bind_ok_step _ _ w existing) by (unfold lift; now rewrite He).
  reflexivity.
Qed.

Lemma appends_ensure_tail (E : Env) (crates : list Crate) (content : string)
    (referenced existing : gset string) :
  Appends
    (open_cargo_append E;;
     (if negb (str_contains patch_header content)
      then writeln_cargo E (nl +:+ patch_header) else mret tt);;
     append_patches E referenced existing crates [])
    ((if str_contains patch_header content then "" else nl +:+ patch_header +:+ nl) +:+
     append_all (map (fun c => patch_line c +:+ nl)
                   (List.filter (applies referenced existing) crates))).
Proof.
  apply (appends_bind _ _ ""); [apply appends_open | intros _].
  apply appends_bind; [|intros _; apply appends_append_patches].
  destruct (str_contains patch_header content); cbn [negb].
  - apply appends_ret.
  - rewrite <- (string_app_assoc nl). apply appends_writeln.
Qed.

Lemma ensure_patches_cases (E : Env) (crates : list Crate) (w : World) :
  snd (ensure_patches_in_cargo_toml E crates w) = w \/
  exists content referenced existing,
    cargo_toml (cur_files w) = Some content /\
    parse_referenced_crates (toml_from_str E) content = ROk referenced /\
    parse_existing_patches (toml_from_str E) content = ROk existing.
Proof.
  destruct (cargo_toml (cur_files w)) as [content|] eqn:Hc.
  - destruct (parse_referenced_crates (toml_from_str E) content) as [r|e|e] eqn:Hr.
    + destruct (parse_existing_patches (toml_from_str E) content) as [x|e|e] eqn:He.
      * right. eauto 6.
      * left. unfold ensure_patches_in_cargo_toml, mbind, M_bind, read_cargo, lift.
        now rewrite Hc, Hr, He.
      * left. unfold ensure_patches_in_cargo_toml, mbind, M_bind, read_cargo, lift.
        now rewrite Hc, Hr, He.
    + left. unfold ensure_patches_in_cargo_toml, mbind, M_bind, read_cargo, lift.
      now rewrite Hc, Hr.
    + left. unfold ensure_patches_in_cargo_toml, mbind, M_bind, read_cargo, lift.
      now rewrite Hc, Hr.
  - left. unfold ensure_patches_in_cargo_toml, mbind, M_bind, read_cargo. now rewrite Hc.
Qed.

(** [ensure_patches_in_cargo_toml] runs no command, stays in its
    directory and never touches a [deny.toml] nor the files of another
    directory.  It only appends to [Cargo.toml]: on a manifest that parses,
    whatever the outcome, the file ends as its old text followed by a
    prefix of the header (when it was missing) and the lines of the
    selected candidates; a write that fails part-way leaves such a prefix
    behind. *)
Theorem ensure_patches_frame (E : Env) (crates : list Crate) (w : World) :
  let w' := snd (ensure_patches_in_cargo_toml E crates w) in
  cwd w' = cwd w /\ log w' = log w /\
  (forall d, deny_toml (files w' d) = deny_toml (files w d)) /\
  (forall d, d <> cwd w -> files w' d = files w d) /\
  (forall content referenced existing,
   cargo_toml (cur_files w) = Some content ->
   parse_referenced_crates (toml_from_str E) content = ROk referenced ->
   parse_existing_patches (toml_from_str E) content = ROk existing ->
   exists p q,
     cargo_toml (cur_files w') = Some (content +:+ p) /\
     p +:+ q = (if str_contains patch_header content then "" else nl +:+ patch_header +:+ nl) +:+
               append_all (map (fun c => patch_line c +:+ nl)
                              (List.filter (applies referenced existing) crates))).
Proof.
  cbv zeta.
  destruct (ensure_patches_cases E crates w)
    as [Hw | (content & referenced & existing & Hc & Hr & He)].
  - rewrite Hw. split; [reflexivity|]. split; [reflexivity|].
    split; [reflexivity|]. split; [reflexivity|].
    intros content referenced existing Hc _ _. eexists "", _.
    rewrite string_app_nil_r. split; [exact Hc | reflexivity].
  - rewrite (ensure_patches_unfold E crates w content referenced existing Hc Hr He).
    destruct (appends_ensure_tail E crates content referenced existing w content Hc)
      as (Hcwd & Hlog & Hoth & Hdeny & p & q & Hf & Hpq & _).
    split; [exact Hcwd|]. split; [exact Hlog|]. split; [|split; [exact Hoth|]].
    + intros d. destruct (String.string_dec d (cwd w)) as [->|Hne].
      * unfold cur_files in Hdeny. rewrite Hcwd in Hdeny. exact Hdeny.
      * now rewrite Hoth.
    + intros content' referenced' existing' Hc' Hr' He'.
      rewrite Hc in Hc'. injection Hc' as <-.
      rewrite Hr in Hr'. injection Hr' as <-.
      rewrite He in He'. injection He' as <-.
      now exists p, q.
Qed.

Lemma ensure_patches_frame_witness :
  cargo_toml (cur_files (world_with manifest_plain)) = Some manifest_plain /\
  parse_referenced_crates (toml_from_str (env_cargo_limit 60)) manifest_plain = ROk {["foo"]} /\
  parse_existing_patches (toml_from_str (env_cargo_limit 60)) manifest_plain = ROk ∅ /\
  fst (ensure_patches_in_cargo_toml (env_cargo_limit 60) [foo] (world_with manifest_plain)) =
    RErr "Failed to write to Cargo.toml" /\
  cargo_toml (cur_files (snd (ensure_patches_in_cargo_toml (env_cargo_limit 60) [foo]
                               (world_with manifest_plain)))) <> Some manifest_plain /\
  exists p q,
    cargo_toml (cur_files (snd (ensure_patches_in_cargo_toml (env_cargo_limit 60) [foo]
                                 (world_with manifest_plain)))) = Some (manifest_plain +:+ p) /\
    p +:+ q = (if str_contains patch_header manifest_plain then ""
               else nl +:+ patch_header +:+ nl) +:+
              append_all (map (fun c => patch_line c +:+ nl)
                             (List.filter (applies {["foo"]} ∅) [foo])).
Proof.
  assert (H1 : cargo_toml (cur_files (world_with manifest_plain)) = Some manifest_plain)
    by reflexivity.
  assert (H2 : parse_referenced_crates (toml_from_str (env_cargo_limit 60)) manifest_plain =
               ROk {["foo"]}) by (vm_compute; reflexivity).
  assert (H3 : parse_existing_patches (toml_from_str (env_cargo_limit 60)) manifest_plain =
               ROk ∅) by (vm_compute; reflexivity).
  split; [exact H1|]. split; [exact H2|]. split; [exact H3|].
  split; [vm_compute; reflexivity|]. split; [vm_compute; discriminate|].
  exact (proj2 (proj2 (proj2 (proj2 (ensure_patches_frame (env_cargo_limit 60) [foo]
           (world_with manifest_plain)))))
           manifest_plain {["foo"]} ∅ H1 H2 H3).
Defined.

(** ** The reports of the batch operations *)

Lemma report_names_ok (ds : list string) (w : World) (ns : list string) :
  fst (report_names ds w) = ROk ns -> map Some ns = map file_name ds.
Proof.
  revert ns. induction ds as [|d ds IH]; intros ns; simpl.
  - intros [= <-]. reflexivity.
  - unfold mbind at 1, M_bind at 1, expect at 1.
    destruct (file_name d) as [n|]; [|discriminate].
    unfold mbind, M_bind.
    destruct (report_names ds w) as [[ns'|e|e] w1] eqn:Hr; try discriminate.
    intros [= <-]. simpl. f_equal. now apply IH.
Qed.

Lemma patch_loop_perm (E : Env) (branch_name : string) (crates : list Crate)
    (execute : bool) (dirs s0 u0 s u : list string) (w : World) :
  fst (patch_loop E dirs branch_name crates execute s0 u0 w) = ROk (s, u) ->
  s ++ u ≡ₚ s0 ++ u0 ++ dirs.
Proof.
  revert s0 u0 w. induction dirs as [|d dirs IH]; intros s0 u0 w; simpl.
  - intros [= <- <-]. now rewrite app_nil_r.
  - unfold mbind, M_bind, catch.
    destruct (patch_crate E d branch_name crates execute w) as [[x|e|e] w1];
      [| |discriminate].
    + intros H. rewrite (IH _ _ _ H). solve_Permutation.
    + intros H. rewrite (IH _ _ _ H). solve_Permutation.
Qed.

(** When [patch] completes, every configured directory is reported exactly
    once, by its name, as patched or as not patched. *)
Theorem patch_crates_partition (E : Env) (dirs : list string) (branch_name : string)
    (crates : list Crate) (execute : bool) (w : World) (s u : list string) :
  fst (patch_crates E dirs branch_name crates execute w) = ROk (s, u) ->
  map Some (s ++ u) ≡ₚ map file_name dirs.
Proof.
  unfold patch_crates, mbind, M_bind.
  destruct (patch_loop E dirs branch_name crates execute [] [] w) as [[[s0 u0]|e|e] w1] eqn:Hl;
    try discriminate.
  assert (Hp : s0 ++ u0 ≡ₚ dirs).
  { rewrite (patch_loop_perm E branch_name crates execute dirs [] [] s0 u0 w); [reflexivity|].
    now rewrite Hl. }
  destruct (report_names s0 w1) as [[ns|e|e] w2] eqn:Hs; try discriminate.
  destruct (report_names u0 w2) as [[nu|e|e] w3] eqn:Hu; try discriminate.
  intros [= <- <-].
  rewrite map_app, (report_names_ok s0 w1 ns), (report_names_ok u0 w2 nu)
    by (rewrite ?Hs, ?Hu; reflexivity).
  rewrite <- map_app. now apply Permutation_map.
Qed.

Lemma patch_crates_partition_witness :
  fst (patch_crates env_new_branch ["/a"; "/b"] "patch-iroh-main" [foo] false
         (world_with manifest_plain)) = ROk (["a"; "b"], []) /\
  map Some (["a"; "b"] ++ []) ≡ₚ map file_name ["/a"; "/b"].
Proof.
  assert (H : fst (patch_crates env_new_branch ["/a"; "/b"] "patch-iroh-main" [foo] false
                     (world_with manifest_plain)) = ROk (["a"; "b"], []))
    by (vm_compute; reflexivity).
  split; [exact H|]. exact (patch_crates_partition _ _ _ _ _ _ _ _ H).
Defined.

Lemma add_outcome_perm (rep : UpdateReport) (o : UpdateOutcome) (n : string) :
  let all r := successes r ++ main_failures r ++ update_failures r ++ check_failures r in
  all (add_outcome rep o n) ≡ₚ all rep ++ [n].
Proof. intros all. subst all. destruct o; simpl; solve_Permutation. Qed.

Lemma update_loop_perm (E : Env) (dirs : list string) (crates : list Crate)
    (rep0 rep : UpdateReport) (w : World) :
  let all r := successes r ++ main_failures r ++ update_failures r ++ check_failures r in
  fst (update_loop E dirs crates rep0 w) = ROk rep ->
  map Some (all rep) ≡ₚ map Some (all rep0) ++ map file_name (List.filter (chdir_ok E) dirs).
Proof.
  intros all. revert rep0 w. induction dirs as [|d dirs IH]; intros rep0 w; simpl.
  - intros [= <-]. now rewrite app_nil_r.
  - unfold mbind at 1, M_bind at 1, expect at 1.
    destruct (file_name d) as [n|] eqn:Hn; [|discriminate].
    unfold mbind at 1, M_bind at 1. rewrite try_set_current_dir_spec.
    destruct (chdir_ok E d); simpl; [|apply IH].
    unfold mbind, M_bind.
    destruct (update_one E crates _) as [[o|e|e] w2]; try discriminate.
    intros H. rewrite (IH _ _ H).
    pose proof (add_outcome_perm rep0 o n) as Hp. cbv zeta in Hp. subst all. simpl.
    rewrite (Permutation_map Some Hp), map_app, Hn. simpl.
    now rewrite <- app_assoc.
Qed.

(** When [update] completes, every directory it could enter is reported
    exactly once, by its name, in one of its four buckets; the others are
    not reported. *)
Theorem update_and_check_partition (E : Env) (dirs : list string) (crates : list Crate)
    (w : World) (rep : UpdateReport) :
  fst (update_and_check E dirs crates w) = ROk rep ->
  map Some (successes rep ++ main_failures rep ++ update_failures rep ++ check_failures rep)
    ≡ₚ map file_name (List.filter (chdir_ok E) dirs).
Proof. intros H. exact (update_loop_perm E dirs crates _ rep w H). Qed.

Lemma update_and_check_partition_witness :
  fst (update_and_check (env_no_chdir "/b") ["/a"; "/b"; "/c"] [foo]
         (world_with manifest_plain)) = ROk (mkReport ["a"; "c"] [] [] []) /\
  map Some (["a"; "c"] ++ [] ++ [] ++ [])
    ≡ₚ map file_name (List.filter (chdir_ok (env_no_chdir "/b")) ["/a"; "/b"; "/c"]).
Proof.
  assert (H : fst (update_and_check (env_no_chdir "/b") ["/a"; "/b"; "/c"] [foo]
                     (world_with manifest_plain)) = ROk (mkReport ["a"; "c"] [] [] []))
    by (vm_compute; reflexivity).
  split; [exact H|]. exact (update_and_check_partition _ _ _ _ _ H).
Defined.

Lemma reset_loop_perm (E : Env) (dirs fs0 ss0 ss fs : list string) (w : World) :
  fst (reset_loop E dirs fs0 ss0 w) = ROk (ss, fs) ->
  map Some (ss ++ fs) ≡ₚ map Some (ss0 ++ fs0) ++ map file_name (List.filter (chdir_ok E) dirs).
Proof.
  revert fs0 ss0 w. induction dirs as [|d dirs IH]; intros fs0 ss0 w; simpl.
  - intros [= <- <-]. now rewrite app_nil_r.
  - unfold mbind at 1, M_bind at 1, expect at 1.
    destruct (file_name d) as [n|] eqn:Hn; [|discriminate].
    unfold mbind at 1, M_bind at 1. rewrite try_set_current_dir_spec.
    destruct (chdir_ok E d); simpl; [|apply IH].
    unfold mbind, M_bind.
    destruct (reset_one E _) as [[b|e|e] w2]; try discriminate.
    intros H. rewrite Hn.
    destruct b; rewrite (IH _ _ _ H), !map_app; simpl; solve_Permutation.
Qed.

(** When [reset] completes, every directory it could enter is reported
    exactly once, by its name, as reset or as not reset; the others are not
    reported. *)
Theorem reset_partition (E : Env) (dirs : list string) (w : World) (ss fs : list string) :
  fst (reset E dirs w) = ROk (ss, fs) ->
  map Some (ss ++ fs) ≡ₚ map file_name (List.filter (chdir_ok E) dirs).
Proof. intros H. exact (reset_loop_perm E dirs [] [] ss fs w H). Qed.

Lemma reset_partition_witness :
  fst (reset (env_no_chdir "/b") ["/a"; "/b"; "/c"] (world_with manifest_plain)) =
    ROk (["a"; "c"], []) /\
  map Some (["a"; "c"] ++ [])
    ≡ₚ map file_name (List.filter (chdir_ok (env_no_chdir "/b")) ["/a"; "/b"; "/c"]).
Proof.
  assert (H : fst (reset (env_no_chdir "/b") ["/a"; "/b"; "/c"] (world_with manifest_plain)) =
                ROk (["a"; "c"], []))
    by (vm_compute; reflexivity).
  split; [exact H|]. exact (reset_partition _ _ _ _ _ H).
Defined.
